(** * Multiset compression: the count-augmented search tree and the codecs

    A shallow embedding of [multiset_codec/msbst.py] and of the codecs of
    [multiset_codec/codecs.py], with the properties the specification
    states about them.

    Python integers are unbounded, so tree sizes, indices and slices are
    [Z].  A tuple tree is either [()] or [(size, y, left, right)].  Python
    exceptions are explicit results. *)

From Stdlib Require Import ZArith List Bool Lia Permutation.
From Stdlib Require Import Sorting.Sorted Strings.Ascii Strings.Byte.
Import ListNotations.
Local Open Scope Z_scope.

Set Implicit Arguments.

(** ** Exceptions *)

Inductive exn : Type :=
| ValueError
| IndexError
| AssertionError
| TypeError.

Inductive res (T : Type) : Type :=
| Ok (v : T)
| Raise (e : exn).

Arguments Ok {T} v.
Arguments Raise {T} e.

Definition bind {T U : Type} (c : res T) (k : T -> res U) : res U :=
  match c with
  | Ok v => k v
  | Raise e => Raise e
  end.

Notation "x <- c ;; k" := (bind c (fun x => k))
  (at level 61, c at next level, right associativity).
Notation "c >>= k" := (bind c k) (at level 50, left associativity).
Notation "' p <- c ;; k" := (bind c (fun x => let 'p := x in k))
  (at level 61, p pattern, c at next level, right associativity).

(** ** Symbols

    The tree compares symbols with Python's [<] and [>].  A symbol type is
    a type with a strict total order; [x > y] is [y < x]. *)

Class Symbol (A : Type) : Type := {
  lt : A -> A -> bool;
  lt_irrefl : forall x, lt x x = false;
  lt_trans : forall x y z, lt x y = true -> lt y z = true -> lt x z = true;
  lt_total : forall x y, lt x y = false -> lt y x = false -> x = y
}.

Definition gt {A} `{Symbol A} (x y : A) : bool := lt y x.

(** ** The tuple tree *)

Inductive multiset (A : Type) : Type :=
| Empty
| Node (size : Z) (y : A) (left right : multiset A).

Arguments Empty {A}.

Section Msbst.
Context {A : Type} `{Symbol A}.

(** [m[0] if m else 0] *)
Definition size0 (m : multiset A) : Z :=
  match m with
  | Empty => 0
  | Node size _ _ _ => size
  end.

(** [m[0]]: indexing the empty tuple raises. *)
Definition item0 (m : multiset A) : res Z :=
  match m with
  | Empty => Raise IndexError
  | Node size _ _ _ => Ok size
  end.

(** [insert]: on [()] the default [(0, x, (), ())] makes [y] the symbol
    itself, neither comparison holds, and the result is [(1, x, (), ())]. *)
Fixpoint insert (m : multiset A) (x : A) : multiset A :=
  match m with
  | Empty => Node (0 + 1) x Empty Empty
  | Node size y l r =>
      if lt x y then Node (size + 1) y (insert l x) r
      else if gt x y then Node (size + 1) y l (insert r x)
      else Node (size + 1) y l r
  end.

(** [remove]: unpacking [()] raises [ValueError]. *)
Fixpoint remove (m : multiset A) (x : A) : res (multiset A) :=
  match m with
  | Empty => Raise ValueError
  | Node size y l r =>
      if size =? 1 then Ok Empty
      else if lt x y then
        l' <- remove l x ;; Ok (Node (size - 1) y l' r)
      else if gt x y then
        r' <- remove r x ;; Ok (Node (size - 1) y l r')
      else Ok (Node (size - 1) y l r)
  end.

Fixpoint forward_lookup (m : multiset A) (x : A) : res (Z * Z) :=
  match m with
  | Empty => Raise ValueError
  | Node size y l r =>
      if gt x y then
        '(start_right, freq) <- forward_lookup r x ;;
        r0 <- item0 r ;;
        Ok (size - r0 + start_right, freq)
      else if lt x y then
        forward_lookup l x
      else
        let start := size0 l in
        let freq := size - start - size0 r in
        Ok (start, freq)
  end.

(** [reverse_lookup]: on [()] the default has size 0 and the assertion
    fails. *)
Fixpoint reverse_lookup (m : multiset A) (idx : Z) : res ((Z * Z) * A) :=
  match m with
  | Empty => Raise AssertionError
  | Node size y l r =>
      if negb ((0 <=? idx) && (idx <? size)) then Raise AssertionError
      else
        let y_start := size0 l in
        let y_freq := size - y_start - size0 r in
        if idx <? y_start then
          reverse_lookup l idx
        else if idx >=? y_start + y_freq then
          r0 <- item0 r ;;
          let size_not_right := size - r0 in
          '((start, freq), x) <- reverse_lookup r (idx - size_not_right) ;;
          Ok ((start + size_not_right, freq), x)
        else Ok ((y_start, y_freq), y)
  end.

Fixpoint insert_then_forward_lookup (m : multiset A) (x : A)
  : multiset A * (Z * Z) :=
  match m with
  | Empty =>
      let size := 0 + 1 in
      (Node size x Empty Empty, (0, size - 0 - 0))
  | Node size0_ y l r =>
      let size := size0_ + 1 in
      if gt x y then
        let '(r', (start_right, freq)) :=
          insert_then_forward_lookup r x in
        (Node size y l r', (size - size0 r' + start_right, freq))
      else if lt x y then
        let '(l', (start, freq)) := insert_then_forward_lookup l x in
        (Node size y l' r, (start, freq))
      else
        let start := size0 l in
        let freq := size - start - size0 r in
        (Node size y l r, (start, freq))
  end.

Fixpoint reverse_lookup_then_remove (m : multiset A) (idx : Z)
  : res (multiset A * (Z * Z) * A) :=
  match m with
  | Empty => Raise ValueError
  | Node size y l r =>
      let y_start := size0 l in
      let y_freq := size - y_start - size0 r in
      let finish l r start freq x :=
        let size := size - 1 in
        Ok (if size =? 0 then Empty else Node size y l r,
            (start, freq), x) in
      if idx <? y_start then
        '(l', (start, freq), x) <- reverse_lookup_then_remove l idx ;;
        finish l' r start freq x
      else if idx >=? y_start + y_freq then
        r0 <- item0 r ;;
        let size_not_right := size - r0 in
        '(r', (start, freq), x) <-
          reverse_lookup_then_remove r (idx - size_not_right) ;;
        finish l r' (start + size_not_right) freq x
      else finish l r y_start y_freq y
  end.

(** [build_multiset]: [reduce(insert, sequence, ())]. *)
Definition build_multiset (sequence : list A) : multiset A :=
  fold_left insert sequence Empty.

(** [to_sequence]: in-order traversal; [freq * [y]] is empty for a
    [freq] that is not positive. *)
Fixpoint to_sequence (m : multiset A) : list A :=
  match m with
  | Empty => []
  | Node size y l r =>
      let freq := size - size0 l - size0 r in
      to_sequence l ++ repeat y (Z.to_nat freq) ++ to_sequence r
  end.

End Msbst.

(** ** Invariants of the tree (specification, section 3.2) *)

Section Invariants.
Context {A : Type} `{Symbol A}.

(** A property of every pivot of the tree. *)
Fixpoint all_nodes (P : A -> Prop) (m : multiset A) : Prop :=
  match m with
  | Empty => True
  | Node _ y l r => P y /\ all_nodes P l /\ all_nodes P r
  end.

(** [x] is the pivot of some node. *)
Fixpoint stored (x : A) (m : multiset A) : Prop :=
  match m with
  | Empty => False
  | Node _ y l r => x = y \/ stored x l \/ stored x r
  end.

(** BST order: all symbols in [left] < pivot < all symbols in [right]. *)
Fixpoint bst (m : multiset A) : Prop :=
  match m with
  | Empty => True
  | Node _ y l r =>
      all_nodes (fun z => lt z y = true) l /\
      all_nodes (fun z => lt y z = true) r /\
      bst l /\ bst r
  end.

(** The multiplicity of the pivot at a node: what [size] leaves once the
    children are counted. *)
Definition multiplicity_at (size : Z) (l r : multiset A) : Z :=
  size - size0 l - size0 r.

(** Size consistency with a least multiplicity for every pivot. *)
Fixpoint size_consistent (least : Z) (m : multiset A) : Prop :=
  match m with
  | Empty => True
  | Node size _ l r =>
      least <= multiplicity_at size l r /\
      size_consistent least l /\ size_consistent least r
  end.

(** Every node tuple has a positive size. *)
Fixpoint positive (m : multiset A) : Prop :=
  match m with
  | Empty => True
  | Node size _ l r => 1 <= size /\ positive l /\ positive r
  end.

(** The invariants as the specification states them. *)
Definition valid (m : multiset A) : Prop :=
  bst m /\ size_consistent 1 m.

(** The invariants with pivots that may have no copy left. *)
Definition well_formed (m : multiset A) : Prop :=
  bst m /\ size_consistent 0 m /\ positive m.

End Invariants.


(** ** The contents of a tree, and Python's [sorted] *)

Section Contents.
Context {A : Type} `{Symbol A}.

(** Insertion of [x] behind every element that is not greater. *)
Fixpoint insort (x : A) (xs : list A) : list A :=
  match xs with
  | [] => [x]
  | h :: t => if lt x h then x :: h :: t else h :: insort x t
  end.

(** [sorted(xs)]: the builtin is a stable sort by [<]; over a total order
    its result is the one sorted rearrangement of [xs], which insertion
    of the elements from left to right computes. *)
Definition sorted (xs : list A) : list A :=
  fold_left (fun acc x => insort x acc) xs [].

(** [x <= y], for the ascending order of a sequence. *)
Definition le (x y : A) : Prop := lt y x = false.

(** The number of elements that a test accepts. *)
Definition count (f : A -> bool) (xs : list A) : Z :=
  Z.of_nat (length (filter f xs)).

(** The half-open interval of the copies of [x] in the ascending
    enumeration [xs]: how many elements are less, how many are equal. *)
Definition slice_of (xs : list A) (x : A) : Z * Z :=
  (count (fun z => lt z x) xs,
   count (fun z => negb (lt z x) && negb (lt x z)) xs).

(** The walk of [forward_lookup] down the tree ends in an empty subtree. *)
Fixpoint search_reaches_empty (m : multiset A) (x : A) : Prop :=
  match m with
  | Empty => True
  | Node _ y l r =>
      if gt x y then search_reaches_empty r x
      else if lt x y then search_reaches_empty l x
      else False
  end.

(** The trees a program can hold: what the four mutators produce from
    [()].  A removal by symbol takes a symbol that has a copy, a removal
    by index an index below the size. *)
Inductive reachable : multiset A -> Prop :=
| reach_empty : reachable Empty
| reach_insert m x :
    reachable m -> reachable (insert m x)
| reach_remove m x m' :
    reachable m -> In x (to_sequence m) -> remove m x = Ok m' ->
    reachable m'
| reach_insert_then_forward_lookup m x :
    reachable m -> reachable (fst (insert_then_forward_lookup m x))
| reach_reverse_lookup_then_remove m idx m' sl x :
    reachable m -> 0 <= idx < size0 m ->
    reverse_lookup_then_remove m idx = Ok (m', sl, x) ->
    reachable m'.

End Contents.

(** ** Byte strings as symbols

    Python compares [bytes] lexicographically, a proper prefix first. *)

Fixpoint bytes_lt (a b : list Byte.byte) : bool :=
  match a, b with
  | _, [] => false
  | [], _ :: _ => true
  | x :: a', y :: b' =>
      (Byte.to_N x <? Byte.to_N y)%N
      || ((Byte.to_N x =? Byte.to_N y)%N && bytes_lt a' b')
  end.

(** ** Trees of the test suite *)

Module Tests.
Local Open Scope char_scope.

Definition leaf (size : Z) (y : ascii) : multiset ascii :=
  Node size y Empty Empty.

(** The last tree of [test_insert_then_forward_lookup]. *)
Definition tree8 : multiset ascii :=
  Node 8 "c" (Node 3 "a" Empty (leaf 1 "b"))
             (Node 3 "e" (leaf 1 "d") (leaf 1 "f")).

Definition xs : list ascii := ["a"; "a"; "a"; "a"; "b"; "b"; "b"; "d"].

(** [insert "b"], [insert "a"], then [remove "b"]: the pivot ["b"] stays
    with no copy of its own. *)
Definition ghost_tree : multiset ascii :=
  Node 1 "b" (leaf 1 "a") Empty.

(** The tree of [test_insert_then_forward_lookup] after four insertions. *)
Definition tree4 : multiset ascii :=
  Node 4 "c" (Node 3 "a" Empty (leaf 1 "b")) Empty.

(** Three byte strings, one of them twice, as the symbols of the image
    experiment are. *)
Definition images : list (list Byte.byte) :=
  [[Byte.x52; Byte.x49]; [Byte.x46]; [Byte.x52; Byte.x49]; []].

End Tests.

(** ** The rANS engine

    An ANS state is a pair [(head, tail)]: a vector of lanes and a stack
    of words.  The head is a vector of rank 1, as the experiments
    create it ([base_message(784)], [base_message(1000)],
    [base_message(shape=(1,))]); the heads of rank 2 that
    [test_rans.py] takes are not covered. *)

Abbreviation head := (list Z) (only parsing).

(** The lanes of a state. *)
Definition lanes {T : Type} (st : head * T) : nat := length (fst st).

(** A slice [(start, freq)] is inside a distribution of total
    [precision]. *)
Definition slice_ok (precision start freq : Z) : Prop :=
  0 <= start /\ 1 <= freq /\ start + freq <= precision.

(** One slice for each of [n] lanes. *)
Definition slices_ok (precision : Z) (n : nat) (starts freqs : list Z)
  : Prop :=
  length starts = n /\ length freqs = n /\
  Forall2 (slice_ok precision) starts freqs.

(** Lane by lane the index lies in the slice. *)
Definition within (cfs starts freqs : list Z) : Prop :=
  Forall2 (fun cf sf => fst sf <= cf < fst sf + snd sf)
          cfs (combine starts freqs).

(** Modelled from the spec: [multiset_codec/rans.py] is not among the
    sources; only its callers in [codecs.py] and its tests are.  The
    engine is the interface that the callers use,
    [encode(x, starts, freqs, precisions)] and [decode(x, precisions)],
    which returns the indices [cfs] and the closure
    [pop(starts, freqs)].  Nothing is assumed of its arithmetic:
    [encode] and [pop] may raise (section 7 names the overflow of the
    precision in [encode] and the underflow of an empty tail in the
    pull of [pop]), and the lanes may hold any number.  The laws are
    those of the shape, which section 3.1 fixes when the state is
    made: a step that returns gives back as many lanes as it took, and
    [decode] returns one index for each lane. *)
Class Rans : Type := {
  tail : Type;
  rans_encode :
    head * tail -> list Z -> list Z -> Z -> res (head * tail);
  rans_decode :
    head * tail -> Z -> list Z * (list Z -> list Z -> res (head * tail));
  encode_shape : forall st starts freqs p st',
    rans_encode st starts freqs p = Ok st' -> lanes st' = lanes st;
  pop_shape : forall st starts freqs p st',
    snd (rans_decode st p) starts freqs = Ok st' -> lanes st' = lanes st;
  decode_shape : forall st p,
    length (fst (rans_decode st p)) = lanes st
}.

(** An engine that is exact on every state: the sentence of section
    4.A that [encode] followed by [decode] and [pop] with the same
    arguments is the identity on the state, and the other way round,
    taken for all states, with the precision read as the total of the
    distribution, as the docstring of [Uniform] in [codecs.py] has it
    (a distribution in the interval [0, prec)).  Whether [rans.py] is
    such an engine cannot be read from the sources, and the lane
    algorithm that section 4.A writes out is not one (module
    [Section4AFacts]): the sentence leaves out the bounds of the lanes
    and the underflow of the tail.  The lemmas that rest on this class
    say what the codecs of [codecs.py] do on such an engine, and
    nothing about [rans.py]. *)
Class Exact (R : Rans) : Prop := {
  decode_range : forall st p,
    1 <= p -> Forall (fun cf => 0 <= cf < p) (fst (rans_decode st p));
  decode_encode : forall st starts freqs p,
    slices_ok p (lanes st) starts freqs ->
    exists st',
      rans_encode st starts freqs p = Ok st' /\
      within (fst (rans_decode st' p)) starts freqs /\
      snd (rans_decode st' p) starts freqs = Ok st;
  encode_decode : forall st starts freqs p,
    slices_ok p (lanes st) starts freqs ->
    within (fst (rans_decode st p)) starts freqs ->
    exists st1,
      snd (rans_decode st p) starts freqs = Ok st1 /\
      rans_encode st1 starts freqs p = Ok st
}.

(** A numpy operand: a Python number, or an array with one entry for
    each lane. *)
Inductive operand : Type :=
| Num (v : Z)
| Arr (vs : list Z).

(** Broadcasting of an operand over [n] lanes. *)
Definition broadcast (n : nat) (o : operand) : list Z :=
  match o with
  | Num v => repeat v n
  | Arr vs => vs
  end.

(** ** Codecs *)

Section Codecs.
Context `{R : Rans}.

Definition ans_state : Type := head * tail.

(** [Codec = namedtuple('Codec', ['encode', 'decode'])], with the
    signatures of the module docstring; a codec without context has
    context [unit]. *)
Record Codec (S Ctx : Type) : Type := {
  encode : ans_state -> S -> Ctx -> res (ans_state * Ctx);
  decode : ans_state -> Ctx -> res (ans_state * S * Ctx)
}.

(** [cs.util.view_update(head, view_fun)] for the views [head[:n]] that
    the codecs take on a head of rank 1: the first lanes, and the
    function that writes them back. *)
Definition view_update (h : head) (n : nat) : head * (head -> head) :=
  (firstn n h, fun subhead => subhead ++ skipn n h).

Definition substack {S Ctx : Type} (codec : Codec S Ctx) (n : nat)
  : Codec S Ctx :=
  {| encode := fun st symbol context =>
       let '(h, t) := st in
       let '(subhead, update) := view_update h n in
       '((subhead', t'), context') <-
         encode codec (subhead, t) symbol context ;;
       Ok ((update subhead', t'), context');
     decode := fun st context =>
       let '(h, t) := st in
       let '(subhead, update) := view_update h n in
       '((subhead', t'), symbol, context') <-
         decode codec (subhead, t) context ;;
       Ok ((update subhead', t'), symbol, context') |}.

(** The entries of an array; a Python number has none to index. *)
Definition entries (o : operand) : res (list Z) :=
  match o with
  | Num _ => Raise TypeError
  | Arr vs => Ok vs
  end.

(** [cdf_value[0]] *)
Definition first (vs : list Z) : res Z :=
  match vs with
  | [] => Raise IndexError
  | v :: _ => Ok v
  end.

Section Symbols.
Context {A : Type} `{Symbol A}.

(** The closures [encode] and [decode] of [SamplingWithoutReplacement];
    the context is the multiset. *)
Definition SamplingWithoutReplacement_encode (st : ans_state) (symbol : A)
    (mset : multiset A) : res (ans_state * multiset A) :=
  let '(mset', (start, freq)) := insert_then_forward_lookup mset symbol in
  multiset_size <- item0 mset' ;;
  let n := lanes st in
  st' <- rans_encode st (broadcast n (Num start)) (broadcast n (Num freq))
                     multiset_size ;;
  Ok (st', mset').

Definition SamplingWithoutReplacement_decode (st : ans_state)
    (mset : multiset A) : res (ans_state * A * multiset A) :=
  multiset_size <- item0 mset ;;
  let '(cdf_value, decode_) := rans_decode st multiset_size in
  cf0 <- first cdf_value ;;
  '(mset', (start, freq), symbol) <- reverse_lookup_then_remove mset cf0 ;;
  let n := lanes st in
  st' <- decode_ (broadcast n (Num start)) (broadcast n (Num freq)) ;;
  Ok (st', symbol, mset').

Definition SamplingWithoutReplacement : Codec A (multiset A) :=
  substack {| encode := SamplingWithoutReplacement_encode;
              decode := SamplingWithoutReplacement_decode |} 1.

(** [Multiset(symbol_codec).encode]: the loop [while multiset] runs as
    long as the tree is a node tuple; [None] is a loop that has not
    ended within [fuel] rounds. *)
Fixpoint Multiset_encode (symbol_codec : Codec A unit) (fuel : nat)
    (st : ans_state) (mset : multiset A) : option (res ans_state) :=
  match mset with
  | Empty => Some (Ok st)
  | Node _ _ _ _ =>
      match fuel with
      | O => None
      | S fuel' =>
          match decode SamplingWithoutReplacement st mset with
          | Raise e => Some (Raise e)
          | Ok (st1, symbol, mset') =>
              match encode symbol_codec st1 symbol tt with
              | Raise e => Some (Raise e)
              | Ok (st2, _) =>
                  Multiset_encode symbol_codec fuel' st2 mset'
              end
          end
      end
  end.

(** The body of [for _ in range(multiset_size)]. *)
Fixpoint Multiset_decode_loop (symbol_codec : Codec A unit) (rounds : nat)
    (st : ans_state) (mset : multiset A)
  : res (ans_state * multiset A) :=
  match rounds with
  | O => Ok (st, mset)
  | S rounds' =>
      '(st1, symbol, _) <- decode symbol_codec st tt ;;
      '(st2, mset') <-
        encode SamplingWithoutReplacement st1 symbol mset ;;
      Multiset_decode_loop symbol_codec rounds' st2 mset'
  end.

Definition Multiset_decode (symbol_codec : Codec A unit)
    (st : ans_state) (multiset_size : Z) : res (ans_state * multiset A) :=
  Multiset_decode_loop symbol_codec (Z.to_nat multiset_size) st Empty.

End Symbols.

Definition Uniform (prec : Z) : Codec operand unit :=
  {| encode := fun st symbol _ =>
       let n := lanes st in
       st' <- rans_encode st (broadcast n symbol) (broadcast n (Num 1))
                          prec ;;
       Ok (st', tt);
     decode := fun st _ =>
       let '(symbol, decode_) := rans_decode st prec in
       let n := lanes st in
       st' <- decode_ (broadcast n (Arr symbol)) (broadcast n (Num 1)) ;;
       Ok (st', Arr symbol, tt) |}.

(** [np.frombuffer(bytes_array, dtype=np.uint8)] *)
Definition frombuffer (bytes_array : list Byte.byte) : list Z :=
  map (fun b => Z.of_N (Byte.to_N b)) bytes_array.

(** [ndarray.astype(np.uint8).tobytes()]: every entry is cut to its low
    eight bits. *)
Definition tobytes (ndarray : list Z) : list Byte.byte :=
  map (fun v => match Byte.of_N (Z.to_N (v mod 256)) with
                | Some b => b
                | None => Byte.x00
                end) ndarray.

Definition ByteArray (max_array_size : Z) : Codec (list Byte.byte) unit :=
  let size_codec := substack (Uniform max_array_size) 1 in
  let bytes_codec := fun size : nat => substack (Uniform 256) size in
  {| encode := fun st bytes_array _ =>
       let bytes_ndarray := frombuffer bytes_array in
       let size := length bytes_array in
       '(st1, _) <- encode (bytes_codec size) st (Arr bytes_ndarray) tt ;;
       '(st2, _) <- encode size_codec st1 (Num (Z.of_nat size)) tt ;;
       Ok (st2, tt);
     decode := fun st _ =>
       '(st1, size, _) <- decode size_codec st tt ;;
       size_0 <- (entries size >>= first) ;;
       '(st2, bytes_ndarray, _) <-
         decode (bytes_codec (Z.to_nat size_0)) st1 tt ;;
       bytes_array <- (entries bytes_ndarray >>= fun a => Ok (tobytes a)) ;;
       Ok (st2, bytes_array, tt) |}.

(** A symbol of [Uniform(prec)] on [n] lanes: one entry in [0, prec)
    for each lane. *)
Definition fits (prec : Z) (n : nat) (symbol : operand) : Prop :=
  length (broadcast n symbol) = n /\
  Forall (fun x => 0 <= x < prec) (broadcast n symbol).

(** The codec brings [x] back from every state whose head has [n]
    lanes, and keeps the shape of the head. *)
Definition inverts {S : Type} (n : nat) (codec : Codec S unit) (x : S)
  : Prop :=
  forall st, lanes st = n ->
    exists st',
      encode codec st x tt = Ok (st', tt) /\
      decode codec st' tt = Ok (st, x, tt) /\
      lanes st' = n.

End Codecs.

(** ** An engine to run the codecs on

    The codecs need an engine to be run on an example.  This one reads
    the precision as the total of the distribution and works on lanes
    that are unbounded integers: it multiplies by the total where
    section 4.A shifts by the precision, never moves a word between
    head and tail, and never raises.  It is neither [rans.py], which is
    not among the sources, nor the lane algorithm of section 4.A, which
    is the module [Section4A] below. *)

(** [h <- (h / freq) * total + (h mod freq) + start], lane by lane. *)
Fixpoint encode_lanes (p : Z) (h starts freqs : list Z) : list Z :=
  match h with
  | [] => []
  | x :: h' =>
      let start := hd 0 starts in
      let freq := hd 0 freqs in
      (x / freq) * p + x mod freq + start
        :: encode_lanes p h' (tl starts) (tl freqs)
  end.

(** [h <- freq * (h / total) + (h mod total) - start], lane by lane. *)
Fixpoint pop_lanes (p : Z) (h starts freqs : list Z) : list Z :=
  match h with
  | [] => []
  | x :: h' =>
      let start := hd 0 starts in
      let freq := hd 0 freqs in
      freq * (x / p) + x mod p - start
        :: pop_lanes p h' (tl starts) (tl freqs)
  end.

(** The state [(head, tail)] with a stack of words that stays as it
    is. *)
Definition ideal_encode (st : head * list Z) (starts freqs : list Z) (p : Z)
  : res (head * list Z) :=
  Ok (encode_lanes p (fst st) starts freqs, snd st).

(** The index of a lane is [h mod total]. *)
Definition ideal_decode (st : head * list Z) (p : Z)
  : list Z * (list Z -> list Z -> res (head * list Z)) :=
  (map (fun x => x mod p) (fst st),
   fun starts freqs => Ok (pop_lanes p (fst st) starts freqs, snd st)).

(** Modelled from the spec: [rans.base_message] is not among the
    sources; by section 3.1 it sets every lane to [RANS_L = 2^32] and
    leaves the tail empty.  The shape is one number of lanes. *)
Definition base_message (shape : nat) : head * list Z :=
  (repeat (2 ^ 32) shape, []).

(** ** The lane algorithm as section 4.A words it

    The steps of section 4.A for one lane, taken literally:
    [RANS_BASE = 2^32], [RANS_L = 2^32], 64-bit unsigned lane
    arithmetic, the precision a number of bits, the renormalisations as
    the two [while] loops. *)

Module Section4A.

Definition RANS_BASE : Z := 2 ^ 32.
Definition RANS_L : Z := 2 ^ 32.
Definition RANS_H : Z := 2 ^ 64.

(** 64-bit unsigned wrap-around. *)
Definition u64 (x : Z) : Z := x mod RANS_H.

(** Modelled from the spec: step 1 of [rans.encode], which is not among
    the sources: while [h >= max_h], push the 32 low bits and shift.
    The loop shortens nothing once the lane is 0, so it runs on fuel. *)
Fixpoint encode_renorm (fuel : nat) (h : Z) (tail : list Z) (max_h : Z)
  : option (Z * list Z) :=
  match fuel with
  | O => None
  | S fuel' =>
      if h >=? max_h then
        encode_renorm fuel' (Z.shiftr h 32)
                      (Z.land h (RANS_BASE - 1) :: tail) max_h
      else Some (h, tail)
  end.

(** Modelled from the spec: [rans.encode] for one lane, not among the
    sources, with [max_h = ((RANS_L / RANS_BASE) << precision) * freq]
    and [h <- ((h / freq) << precision) + (h mod freq) + start]. *)
Definition encode (fuel : nat) (st : Z * list Z) (start freq precision : Z)
  : option (Z * list Z) :=
  let '(h, tail) := st in
  let max_h := u64 (Z.shiftl (RANS_L / RANS_BASE) precision * freq) in
  match encode_renorm fuel h tail max_h with
  | None => None
  | Some (h, tail) =>
      Some (u64 (Z.shiftl (h / freq) precision + h mod freq + start), tail)
  end.

(** Modelled from the spec: the index [cf] of [rans.decode], not among
    the sources: [h & ((1 << precision) - 1)]. *)
Definition decode (st : Z * list Z) (precision : Z) : Z :=
  Z.land (fst st) (Z.shiftl 1 precision - 1).

(** Modelled from the spec: step 2 of [pop], not among the sources:
    while [h < RANS_L], pull the top of the tail; [None] is the
    underflow of an empty tail. *)
Fixpoint decode_renorm (h : Z) (tail : list Z) : option (Z * list Z) :=
  match tail with
  | [] => if h <? RANS_L then None else Some (h, [])
  | w :: tail' =>
      if h <? RANS_L then decode_renorm (u64 (Z.lor (Z.shiftl h 32) w)) tail'
      else Some (h, tail)
  end.

(** Modelled from the spec: the closure [pop(start, freq)] of
    [rans.decode], not among the sources:
    [h <- freq * (h >> precision) + cf - start], then step 2. *)
Definition pop (st : Z * list Z) (precision start freq : Z)
  : option (Z * list Z) :=
  let '(h, tail) := st in
  let cf := decode st precision in
  decode_renorm (u64 (freq * Z.shiftr h precision + cf - start)) tail.

End Section4A.

(** ** Equality of multisets, and the sequence codec *)

Section MoreMsbst.
Context {A : Type} `{Symbol A}.

(** [x == y] on symbols: over a total order, the symbols that are
    neither less nor greater. *)
Definition symbol_eq (x y : A) : bool := negb (lt x y) && negb (lt y x).

(** [==] on two Python lists: the same length and equal entries. *)
Fixpoint list_eq (xs ys : list A) : bool :=
  match xs, ys with
  | [], [] => true
  | x :: xs', y :: ys' => symbol_eq x y && list_eq xs' ys'
  | _, _ => false
  end.

Definition check_multiset_equality (m other_multiset : multiset A) : bool :=
  list_eq (sorted (to_sequence m)) (sorted (to_sequence other_multiset)).

End MoreMsbst.

Section MoreCodecs.
Context `{R : Rans}.





End MoreCodecs.

(** ** What the bits-back loop needs of the engine and of the symbol
    codec *)

Section Undoing.
Context `{R : Rans}.

(** On one lane [encode] undoes [pop]: where [pop] returns a state for
    a slice of the distribution that holds the index of the lane,
    [encode] of that slice at the same precision returns the state
    that was popped.  This is the half "and vice versa" of the sentence
    of section 4.A on [encode] and [decode], for the pops that return;
    whether [rans.py] does so is not in the sources. *)
Definition encode_undoes_pop : Prop :=
  forall (st st1 : head * tail) (p start freq : Z),
    lanes st = 1%nat ->
    slice_ok p start freq ->
    within (fst (rans_decode st p)) [start] [freq] ->
    snd (rans_decode st p) [start] [freq] = Ok st1 ->
    rans_encode st1 [start] [freq] p = Ok st.

(** On heads of [n] lanes the codec's [decode] undoes its [encode] of
    [x] wherever that returns, and the shape of the head is kept. *)
Definition undoes {S : Type} (n : nat) (codec : Codec S unit) (x : S)
  : Prop :=
  forall st st', lanes st = n ->
    encode codec st x tt = Ok (st', tt) ->
    decode codec st' tt = Ok (st, x, tt) /\ lanes st' = n.

End Undoing.

(** * Properties *)

(** ** Symbol instances *)

Lemma Zltb_trans (x y z : Z) :
  (x <? y) = true -> (y <? z) = true -> (x <? z) = true.
Proof. rewrite !Z.ltb_lt. lia. Qed.

Lemma Zltb_total (x y : Z) : (x <? y) = false -> (y <? x) = false -> x = y.
Proof. rewrite !Z.ltb_ge. lia. Qed.

#[export] Instance Symbol_Z : Symbol Z :=
  {| lt := Z.ltb;
     lt_irrefl := Z.ltb_irrefl;
     lt_trans := Zltb_trans;
     lt_total := Zltb_total |}.

(** Single characters as symbols, for the trees of the test suite. *)

Definition ascii_lt (a b : ascii) : bool :=
  (N_of_ascii a <? N_of_ascii b)%N.

Lemma ascii_lt_irrefl (a : ascii) : ascii_lt a a = false.
Proof. apply N.ltb_irrefl. Qed.

Lemma ascii_lt_trans (a b c : ascii) :
  ascii_lt a b = true -> ascii_lt b c = true -> ascii_lt a c = true.
Proof. unfold ascii_lt. rewrite !N.ltb_lt. lia. Qed.

Lemma ascii_lt_total (a b : ascii) :
  ascii_lt a b = false -> ascii_lt b a = false -> a = b.
Proof.
  unfold ascii_lt. rewrite !N.ltb_ge. intros Hab Hba.
  rewrite <- (ascii_N_embedding a), <- (ascii_N_embedding b).
  f_equal. lia.
Qed.

#[export] Instance Symbol_ascii : Symbol ascii :=
  {| lt := ascii_lt;
     lt_irrefl := ascii_lt_irrefl;
     lt_trans := ascii_lt_trans;
     lt_total := ascii_lt_total |}.

Module TestSuite.
Import Tests.
Local Open Scope char_scope.

Example test_insert_then_forward_lookup :
  let step acc x := insert_then_forward_lookup (fst acc) x in
  fold_left step ["c"; "a"; "a"; "b"; "c"; "e"; "d"; "f"] (Empty, (0, 0))
  = (tree8, (7, 1)).
Proof. reflexivity. Qed.

Example test_insert_then_forward_lookup_5 :
  insert_then_forward_lookup
    (Node 4 "c" (Node 3 "a" Empty (leaf 1 "b")) Empty) "c"
  = (Node 5 "c" (Node 3 "a" Empty (leaf 1 "b")) Empty, (3, 2)).
Proof. reflexivity. Qed.

Example test_reverse_lookup_then_remove_1 :
  reverse_lookup_then_remove tree8 3
  = Ok (Node 7 "c" (Node 3 "a" Empty (leaf 1 "b"))
                   (Node 3 "e" (leaf 1 "d") (leaf 1 "f")), (3, 2), "c").
Proof. reflexivity. Qed.

(** The fourth removal of the test takes the last ["a"]; its node stays,
    for the sake of ["b"] below it. *)
Example test_reverse_lookup_then_remove_4 :
  reverse_lookup_then_remove
    (Node 5 "c" (Node 2 "a" Empty (leaf 1 "b"))
                (Node 2 "e" Empty (leaf 1 "f"))) 0
  = Ok (Node 4 "c" (Node 1 "a" Empty (leaf 1 "b"))
                   (Node 2 "e" Empty (leaf 1 "f")), (0, 1), "a").
Proof. reflexivity. Qed.

(** The sixth removal of the test leaves pivots ["c"] and ["a"] without a
    copy of their own. *)
Example test_reverse_lookup_then_remove_6 :
  reverse_lookup_then_remove
    (Node 3 "c" (Node 1 "a" Empty (leaf 1 "b"))
                (Node 1 "e" Empty (leaf 1 "f"))) 1
  = Ok (Node 2 "c" (Node 1 "a" Empty (leaf 1 "b"))
                   (Node 1 "e" Empty (leaf 1 "f")), (1, 1), "c").
Proof. reflexivity. Qed.

Example test_reverse_lookup_then_remove_8 :
  reverse_lookup_then_remove
    (Node 1 "c" Empty (Node 1 "e" Empty (leaf 1 "f"))) 0
  = Ok (Empty, (0, 1), "f").
Proof. reflexivity. Qed.

Example test_to_sequence : to_sequence (build_multiset xs) = xs.
Proof. reflexivity. Qed.

(** The lookups that the specification quotes for the tree of eight. *)
Example forward_lookup_tree8 :
  forward_lookup tree8 "c" = Ok (3, 2) /\ forward_lookup tree8 "a" = Ok (0, 2).
Proof. split; reflexivity. Qed.

Example test_forward_lookup :
  map (forward_lookup (build_multiset xs)) ["a"; "b"; "d"]
  = [Ok (0, 4); Ok (4, 3); Ok (7, 1)].
Proof. reflexivity. Qed.

Example test_reverse_lookup :
  map (reverse_lookup (build_multiset xs)) [0; 3; 4; 6; 7]
  = [Ok ((0, 4), "a"); Ok ((0, 4), "a"); Ok ((4, 3), "b");
     Ok ((4, 3), "b"); Ok ((7, 1), "d")].
Proof. reflexivity. Qed.

End TestSuite.

(** ** The search tree *)

Section MsbstFacts.
Context {A : Type} `{Symbol A}.

Lemma lt_asym (x y : A) : lt x y = true -> lt y x = false.
Proof.
  intros Hxy. destruct (lt y x) eqn:Hyx; [|reflexivity].
  rewrite <- (lt_irrefl x). symmetry. exact (lt_trans _ _ _ Hxy Hyx).
Qed.

(** Three-way case analysis as the code makes it. *)
Lemma compare_cases (x y : A) :
  (lt x y = true /\ gt x y = false) \/
  (lt x y = false /\ gt x y = true) \/
  (lt x y = false /\ gt x y = false /\ x = y).
Proof.
  unfold gt. destruct (lt x y) eqn:Hxy, (lt y x) eqn:Hyx.
  - rewrite (lt_asym _ _ Hxy) in Hyx. discriminate.
  - left. split; reflexivity.
  - right. left. split; reflexivity.
  - right. right. repeat split. apply lt_total; assumption.
Qed.

Lemma gt_irrefl (x : A) : gt x x = false.
Proof. apply lt_irrefl. Qed.

Lemma size0_insert (m : multiset A) (x : A) :
  size0 (insert m x) = size0 m + 1.
Proof.
  destruct m as [|size y l r]; simpl; [reflexivity|].
  destruct (lt x y); [reflexivity|]. destruct (gt x y); reflexivity.
Qed.

Lemma all_nodes_insert (P : A -> Prop) (m : multiset A) (x : A) :
  P x -> all_nodes P m -> all_nodes P (insert m x).
Proof.
  intros Hx. induction m as [|size y l IHl r IHr]; simpl; [tauto|].
  intros (Hy & Hl & Hr).
  destruct (lt x y); [simpl; tauto|]. destruct (gt x y); simpl; tauto.
Qed.

Lemma all_nodes_stored (P : A -> Prop) (m : multiset A) (x : A) :
  all_nodes P m -> stored x m -> P x.
Proof.
  induction m as [|size y l IHl r IHr]; simpl; [tauto|].
  intros (Hy & Hl & Hr) [-> | [Hs | Hs]]; auto.
Qed.

Lemma bst_insert (m : multiset A) (x : A) : bst m -> bst (insert m x).
Proof.
  induction m as [|size y l IHl r IHr]; simpl; [tauto|].
  intros (Hl & Hr & Bl & Br).
  destruct (compare_cases x y) as [(Hlt & Hgt) | [(Hlt & Hgt) | (Hlt & Hgt & _)]];
    rewrite Hlt, ?Hgt; simpl; repeat split; auto using all_nodes_insert.
Qed.

Lemma size_consistent_insert (least : Z) (m : multiset A) (x : A) :
  least <= 1 -> size_consistent least m -> size_consistent least (insert m x).
Proof.
  intros Hleast.
  induction m as [|size y l IHl r IHr]; simpl.
  - unfold multiplicity_at. simpl. intros _. repeat split; lia.
  - unfold multiplicity_at. intros (Hm & Hl & Hr).
    destruct (lt x y); [|destruct (gt x y)]; simpl; unfold multiplicity_at;
      rewrite ?size0_insert; repeat split; auto; lia.
Qed.

Lemma positive_size0 (m : multiset A) : positive m -> 0 <= size0 m.
Proof. destruct m; simpl; lia. Qed.

Lemma positive_insert (m : multiset A) (x : A) :
  positive m -> positive (insert m x).
Proof.
  induction m as [|size y l IHl r IHr]; simpl; [lia|].
  intros (Hs & Hl & Hr).
  destruct (lt x y); [|destruct (gt x y)]; simpl; repeat split; auto; lia.
Qed.

Lemma size_consistent_weaken (a b : Z) (m : multiset A) :
  b <= a -> size_consistent a m -> size_consistent b m.
Proof.
  intros Hba. induction m as [|size y l IHl r IHr]; simpl; [tauto|].
  intros (Hm & Hl & Hr). repeat split; auto; lia.
Qed.

Lemma size_consistent_positive (m : multiset A) :
  size_consistent 1 m -> positive m.
Proof.
  induction m as [|size y l IHl r IHr]; simpl; [tauto|].
  unfold multiplicity_at. intros (Hm & Hl & Hr).
  specialize (IHl Hl). specialize (IHr Hr).
  pose proof (positive_size0 _ IHl). pose proof (positive_size0 _ IHr).
  repeat split; auto; lia.
Qed.

Lemma valid_well_formed (m : multiset A) : valid m -> well_formed m.
Proof.
  intros (Hb & Hs). repeat split; auto.
  - apply size_consistent_weaken with (a := 1); [lia|assumption].
  - apply size_consistent_positive; assumption.
Qed.

Lemma valid_insert (m : multiset A) (x : A) : valid m -> valid (insert m x).
Proof.
  intros (Hb & Hs). split; [apply bst_insert|apply size_consistent_insert];
    auto; lia.
Qed.

Lemma well_formed_insert (m : multiset A) (x : A) :
  well_formed m -> well_formed (insert m x).
Proof.
  intros (Hb & Hs & Hp). repeat split;
    auto using bst_insert, positive_insert.
  apply size_consistent_insert; auto; lia.
Qed.

(** *** The fused insertion *)

Lemma insert_then_forward_lookup_fst (m : multiset A) (x : A) :
  fst (insert_then_forward_lookup m x) = insert m x.
Proof.
  induction m as [|size y l IHl r IHr]; simpl; [reflexivity|].
  destruct (compare_cases x y) as [(-> & ->) | [(-> & ->) | (-> & -> & _)]].
  - destruct (insert_then_forward_lookup l x) as [l' [start freq]].
    simpl in *. now subst.
  - destruct (insert_then_forward_lookup r x) as [r' [start freq]].
    simpl in *. now subst.
  - reflexivity.
Qed.

Lemma forward_lookup_insert (m : multiset A) (x : A) :
  forward_lookup (insert m x) x = Ok (snd (insert_then_forward_lookup m x)).
Proof.
  induction m as [|size y l IHl r IHr]; simpl.
  - rewrite gt_irrefl, lt_irrefl. reflexivity.
  - destruct (compare_cases x y) as [(Hl & Hg) | [(Hl & Hg) | (Hl & Hg & _)]];
      rewrite Hl, Hg; simpl; rewrite Hl, Hg.
    + rewrite IHl.
      destruct (insert_then_forward_lookup l x) as [l' [start freq]].
      reflexivity.
    + rewrite IHr.
      pose proof (insert_then_forward_lookup_fst r x) as Hfst.
      destruct (insert_then_forward_lookup r x) as [r' [start freq]].
      simpl in *. subst r'. 
      destruct (insert r x) eqn:Hins; [|reflexivity].
      destruct r; simpl in Hins; [discriminate|].
      destruct (lt x y0); [discriminate|]. destruct (gt x y0); discriminate.
    + reflexivity.
Qed.

End MsbstFacts.

(** ** Lookups and removal *)

Section MsbstLookup.
Context {A : Type} `{Symbol A}.

Lemma item0_node (m : multiset A) (v : Z) :
  item0 m = Ok v -> v = size0 m /\ m <> Empty.
Proof. destruct m; simpl; intros E; inversion E; split; congruence. Qed.

Lemma item0_positive (m : multiset A) :
  m <> Empty -> item0 m = Ok (size0 m).
Proof. destruct m; simpl; congruence. Qed.

Lemma insert_not_empty (m : multiset A) (x : A) : insert m x <> Empty.
Proof.
  destruct m as [|size y l r]; simpl; [discriminate|].
  destruct (lt x y); [|destruct (gt x y)]; discriminate.
Qed.

(** [remove] undoes [insert] as soon as no node tuple has size 0. *)
Lemma remove_insert_positive (m : multiset A) (x : A) :
  positive m -> remove (insert m x) x = Ok m.
Proof.
  induction m as [|size y l IHl r IHr]; simpl; [reflexivity|].
  intros (Hs & Hl & Hr).
  destruct (compare_cases x y) as [(Hlt & Hgt) | [(Hlt & Hgt) | (Hlt & Hgt & _)]];
    rewrite Hlt, ?Hgt; simpl; rewrite ?Hlt, ?Hgt;
    replace (size + 1 =? 1) with false by (symmetry; apply Z.eqb_neq; lia);
    rewrite ?IHl, ?IHr by assumption; simpl;
    replace (size + 1 - 1) with size by lia; reflexivity.
Qed.

(** A slice found by [forward_lookup] lies inside [0, size). *)
Lemma forward_lookup_bounds (m : multiset A) (x : A) (start freq : Z) :
  size_consistent 0 m -> positive m ->
  forward_lookup m x = Ok (start, freq) ->
  0 <= start /\ 0 <= freq /\ start + freq <= size0 m.
Proof.
  revert start freq.
  induction m as [|size y l IHl r IHr]; simpl; [discriminate|].
  unfold multiplicity_at. intros start freq (Hm & Cl & Cr) (Hs & Pl & Pr).
  pose proof (positive_size0 _ Pl). pose proof (positive_size0 _ Pr).
  destruct (gt x y).
  - destruct (forward_lookup r x) as [[sr f]|] eqn:Hr; simpl; [|discriminate].
    destruct (item0 r) as [r0|] eqn:Hr0; simpl; [|discriminate].
    apply item0_node in Hr0 as (-> & _).
    intros E; inversion E; subst.
    specialize (IHr _ _ Cr Pr eq_refl). lia.
  - destruct (lt x y).
    + intros Hl. specialize (IHl _ _ Cl Pl Hl). lia.
    + intros E; inversion E; subst. lia.
Qed.

(** Every index of the slice of [x] leads [reverse_lookup] back to [x]
    and to the same slice. *)
Lemma reverse_lookup_forward (m : multiset A) (x : A) (start freq idx : Z) :
  size_consistent 0 m -> positive m ->
  forward_lookup m x = Ok (start, freq) ->
  start <= idx < start + freq ->
  reverse_lookup m idx = Ok ((start, freq), x).
Proof.
  revert start freq idx.
  induction m as [|size y l IHl r IHr]; simpl; [discriminate|].
  unfold multiplicity_at. intros start freq idx (Hm & Cl & Cr) (Hs & Pl & Pr).
  pose proof (positive_size0 _ Pl). pose proof (positive_size0 _ Pr).
  destruct (compare_cases x y) as [(Hlt & Hgt) | [(Hlt & Hgt) | (Hlt & Hgt & Heq)]];
    rewrite Hlt, Hgt.
  - intros Hl Hidx.
    pose proof (forward_lookup_bounds _ _ Cl Pl Hl) as (? & ? & ?).
    replace ((0 <=? idx) && (idx <? size)) with true
      by (symmetry; apply andb_true_intro; split;
          [apply Z.leb_le|apply Z.ltb_lt]; lia).
    simpl. replace (idx <? size0 l) with true
      by (symmetry; apply Z.ltb_lt; lia).
    apply IHl; assumption.
  - destruct (forward_lookup r x) as [[sr f]|] eqn:Hr; simpl; [|discriminate].
    destruct (item0 r) as [r0|] eqn:Hr0; simpl; [|discriminate].
    apply item0_node in Hr0 as (-> & _).
    intros E Hidx; inversion E; subst.
    pose proof (forward_lookup_bounds _ _ Cr Pr Hr) as (? & ? & ?).
    replace ((0 <=? idx) && (idx <? size)) with true
      by (symmetry; apply andb_true_intro; split;
          [apply Z.leb_le|apply Z.ltb_lt]; lia).
    simpl. replace (idx <? size0 l) with false
      by (symmetry; apply Z.ltb_ge; lia).
    replace (idx >=? size0 l + (size - size0 l - size0 r)) with true
      by (symmetry; apply Z.geb_le; lia).
    rewrite (IHr sr freq (idx - (size - size0 r))) by (auto; lia).
    simpl. do 3 f_equal. lia.
  - intros E Hidx; inversion E; subst.
    replace ((0 <=? idx) && (idx <? size)) with true
      by (symmetry; apply andb_true_intro; split;
          [apply Z.leb_le|apply Z.ltb_lt]; lia).
    simpl. replace (idx <? size0 l) with false
      by (symmetry; apply Z.ltb_ge; lia).
    replace (idx >=? size0 l + (size - size0 l - size0 r)) with false
      by (symmetry; rewrite Z.geb_leb; apply Z.leb_gt; lia).
    reflexivity.
Qed.

(** After an insertion the slice of the inserted symbol is not empty. *)
Lemma forward_lookup_insert_freq (m : multiset A) (x : A) :
  size_consistent 0 m ->
  exists start freq,
    forward_lookup (insert m x) x = Ok (start, freq) /\ 1 <= freq.
Proof.
  induction m as [|size y l IHl r IHr]; simpl.
  - intros _. rewrite gt_irrefl, lt_irrefl. simpl. eauto with zarith.
  - unfold multiplicity_at. intros (Hm & Cl & Cr).
    destruct (compare_cases x y) as [(Hlt & Hgt) | [(Hlt & Hgt) | (Hlt & Hgt & Heq)]];
      rewrite Hlt, ?Hgt; simpl; rewrite ?Hlt, ?Hgt.
    + apply IHl; assumption.
    + destruct (IHr Cr) as (sr & f & -> & Hf). simpl.
      rewrite (item0_positive (insert_not_empty r x)). simpl. eauto.
    + do 2 eexists. split; [reflexivity|]. lia.
Qed.

End MsbstLookup.

(** ** Removal by symbol and by index *)

Section MsbstRemove.
Context {A : Type} `{Symbol A}.

Lemma to_sequence_stored (m : multiset A) (z : A) :
  In z (to_sequence m) -> stored z m.
Proof.
  induction m as [|size y l IHl r IHr]; simpl; [tauto|].
  rewrite !in_app_iff. intros [Hz | [Hz | Hz]]; auto.
  left. exact (repeat_spec _ _ _ Hz).
Qed.

Lemma reverse_lookup_stored (m : multiset A) (idx : Z) sl (x : A) :
  reverse_lookup m idx = Ok (sl, x) -> stored x m.
Proof.
  revert idx sl.
  induction m as [|size y l IHl r IHr]; simpl; [discriminate|].
  intros idx sl.
  destruct (negb _); [discriminate|].
  destruct (idx <? size0 l); [eauto|].
  destruct (idx >=? _).
  - destruct (item0 r) as [r0|]; simpl; [|discriminate].
    destruct (reverse_lookup r _) as [[[s f] z]|] eqn:Hr; simpl; [|discriminate].
    intros E; inversion E; subst. eauto.
  - intros E; inversion E; subst. auto.
Qed.

(** A valid index always finds a symbol, inside a slice that holds the
    index. *)
Lemma reverse_lookup_total (m : multiset A) (idx : Z) :
  size_consistent 0 m -> positive m -> 0 <= idx < size0 m ->
  exists start freq x,
    reverse_lookup m idx = Ok ((start, freq), x) /\
    start <= idx < start + freq /\ 0 <= start /\ start + freq <= size0 m.
Proof.
  revert idx.
  induction m as [|size y l IHl r IHr]; simpl; [lia|].
  unfold multiplicity_at. intros idx (Hm & Cl & Cr) (Hs & Pl & Pr) Hidx.
  pose proof (positive_size0 _ Pl). pose proof (positive_size0 _ Pr).
  replace ((0 <=? idx) && (idx <? size)) with true
    by (symmetry; apply andb_true_intro; split;
        [apply Z.leb_le|apply Z.ltb_lt]; lia).
  simpl. destruct (idx <? size0 l) eqn:Hleft.
  - apply Z.ltb_lt in Hleft.
    destruct (IHl idx Cl Pl) as (s & f & x & E & ? & ? & ?); [lia|].
    exists s, f, x. repeat split; auto; lia.
  - apply Z.ltb_ge in Hleft.
    destruct (idx >=? _) eqn:Hright.
    + apply Z.geb_le in Hright.
      assert (r <> Empty) as Hne by (destruct r; simpl in *; [lia|discriminate]).
      rewrite (item0_positive Hne). simpl.
      destruct (IHr (idx - (size - size0 r)) Cr Pr) as (s & f & x & E & ? & ? & ?);
        [lia|].
      rewrite E. simpl. do 3 eexists. split; [reflexivity|]. lia.
    + rewrite Z.geb_leb in Hright. apply Z.leb_gt in Hright.
      do 3 eexists. split; [reflexivity|]. lia.
Qed.

(** The fused removal is [reverse_lookup] followed by [remove] of the
    symbol found. *)
Lemma reverse_lookup_then_remove_fused (m : multiset A) (idx : Z) sl (x : A) :
  bst m ->
  reverse_lookup m idx = Ok (sl, x) ->
  exists m', remove m x = Ok m' /\
             reverse_lookup_then_remove m idx = Ok (m', sl, x).
Proof.
  revert idx sl.
  induction m as [|size y l IHl r IHr]; simpl; [discriminate|].
  intros idx sl (Al & Ar & Bl & Br).
  destruct (negb _); [discriminate|].
  destruct (idx <? size0 l).
  - intros Hl.
    pose proof (all_nodes_stored _ _ _ Al (reverse_lookup_stored _ _ Hl)) as Hlt.
    simpl in Hlt. rewrite Hlt.
    destruct (IHl _ _ Bl Hl) as (l' & -> & ->). simpl.
    destruct sl as [start freq]. simpl.
    destruct (size =? 1) eqn:Hone.
    + apply Z.eqb_eq in Hone. subst size. simpl. eauto.
    + replace (size - 1 =? 0) with false
        by (symmetry; apply Z.eqb_neq; apply Z.eqb_neq in Hone; lia).
      eauto.
  - destruct (idx >=? _).
    + destruct (item0 r) as [r0|]; simpl; [|discriminate].
      destruct (reverse_lookup r _) as [[[s f] z]|] eqn:Hr; simpl; [|discriminate].
      intros E; inversion E; subst.
      pose proof (all_nodes_stored _ _ _ Ar (reverse_lookup_stored _ _ Hr)) as Hgt.
      simpl in Hgt. unfold gt. rewrite Hgt, (lt_asym _ _ Hgt).
      destruct (IHr _ _ Br Hr) as (r' & -> & ->). simpl.
      destruct (size =? 1) eqn:Hone.
      * apply Z.eqb_eq in Hone. subst size. simpl. eauto.
      * replace (size - 1 =? 0) with false
          by (symmetry; apply Z.eqb_neq; apply Z.eqb_neq in Hone; lia).
        eauto.
    + intros E; inversion E; subst.
      unfold gt. rewrite lt_irrefl.
      destruct (size =? 1) eqn:Hone.
      * apply Z.eqb_eq in Hone. subst size. simpl. eauto.
      * replace (size - 1 =? 0) with false
          by (symmetry; apply Z.eqb_neq; apply Z.eqb_neq in Hone; lia).
        eauto.
Qed.

(** The slice that [reverse_lookup] returns is the one [forward_lookup]
    computes for the symbol found. *)
Lemma forward_lookup_reverse (m : multiset A) (idx : Z) sl (x : A) :
  bst m ->
  reverse_lookup m idx = Ok (sl, x) ->
  forward_lookup m x = Ok sl.
Proof.
  revert idx sl.
  induction m as [|size y l IHl r IHr]; simpl; [discriminate|].
  intros idx sl (Al & Ar & Bl & Br).
  destruct (negb _); [discriminate|].
  destruct (idx <? size0 l).
  - intros Hl.
    pose proof (all_nodes_stored _ _ _ Al (reverse_lookup_stored _ _ Hl)) as Hlt.
    simpl in Hlt. unfold gt. rewrite Hlt, (lt_asym _ _ Hlt). eauto.
  - destruct (idx >=? _).
    + destruct (item0 r) as [r0|] eqn:Hr0; simpl; [|discriminate].
      destruct (reverse_lookup r _) as [[[s f] z]|] eqn:Hr; simpl; [|discriminate].
      intros E; inversion E; subst.
      pose proof (all_nodes_stored _ _ _ Ar (reverse_lookup_stored _ _ Hr)) as Hgt.
      simpl in Hgt. unfold gt. rewrite Hgt.
      rewrite (IHr _ _ Br Hr). simpl. do 2 f_equal. lia.
    + intros E; inversion E; subst.
      unfold gt. rewrite lt_irrefl. reflexivity.
Qed.

Lemma all_nodes_remove (P : A -> Prop) (m m' : multiset A) (x : A) :
  all_nodes P m -> remove m x = Ok m' -> all_nodes P m'.
Proof.
  revert m'.
  induction m as [|size y l IHl r IHr]; simpl; [discriminate|].
  intros m' (Hy & Hl & Hr).
  destruct (size =? 1); [intros E; inversion E; exact I|].
  destruct (lt x y).
  - destruct (remove l x) as [l'|]; simpl; [|discriminate].
    intros E; inversion E; subst. simpl. auto.
  - destruct (gt x y).
    + destruct (remove r x) as [r'|]; simpl; [|discriminate].
      intros E; inversion E; subst. simpl. auto.
    + intros E; inversion E; subst. simpl. auto.
Qed.

Lemma bst_remove (m m' : multiset A) (x : A) :
  bst m -> remove m x = Ok m' -> bst m'.
Proof.
  revert m'.
  induction m as [|size y l IHl r IHr]; simpl; [discriminate|].
  intros m' (Al & Ar & Bl & Br).
  destruct (size =? 1); [intros E; inversion E; exact I|].
  destruct (lt x y).
  - destruct (remove l x) as [l'|] eqn:Hl; simpl; [|discriminate].
    intros E; inversion E; subst. simpl. eauto 6 using all_nodes_remove.
  - destruct (gt x y).
    + destruct (remove r x) as [r'|] eqn:Hr; simpl; [|discriminate].
      intros E; inversion E; subst. simpl. eauto 6 using all_nodes_remove.
    + intros E; inversion E; subst. simpl. auto.
Qed.

Lemma size0_remove (m m' : multiset A) (x : A) :
  positive m -> remove m x = Ok m' -> size0 m' = size0 m - 1.
Proof.
  destruct m as [|size y l r]; simpl; [discriminate|].
  intros _. destruct (size =? 1) eqn:Hone.
  - apply Z.eqb_eq in Hone. intros E; inversion E; subst. reflexivity.
  - destruct (lt x y).
    + destruct (remove l x); simpl; [|discriminate].
      intros E; inversion E; reflexivity.
    + destruct (gt x y).
      * destruct (remove r x); simpl; [|discriminate].
        intros E; inversion E; reflexivity.
      * intros E; inversion E; reflexivity.
Qed.

(** Where a copy of [x] is: by the order, on the side the comparison
    points to. *)
Lemma present_cases (size : Z) (y : A) (l r : multiset A) (x : A) :
  bst (Node size y l r) ->
  In x (to_sequence (Node size y l r)) ->
  (lt x y = true /\ In x (to_sequence l)) \/
  (gt x y = true /\ In x (to_sequence r)) \/
  (x = y /\ 1 <= multiplicity_at size l r).
Proof.
  simpl. intros (Al & Ar & _ & _). rewrite !in_app_iff.
  intros [Hx | [Hx | Hx]].
  - left. split; [|assumption].
    exact (all_nodes_stored _ _ _ Al (to_sequence_stored _ _ Hx)).
  - right. right. split; [exact (repeat_spec _ _ _ Hx)|].
    unfold multiplicity_at.
    destruct (Z.to_nat (size - size0 l - size0 r)) eqn:Hk; [destruct Hx|lia].
  - right. left. split; [|assumption].
    exact (all_nodes_stored _ _ _ Ar (to_sequence_stored _ _ Hx)).
Qed.

(** Removing a symbol that has a copy keeps the tree well formed. *)
Lemma well_formed_remove (m m' : multiset A) (x : A) :
  well_formed m -> In x (to_sequence m) -> remove m x = Ok m' ->
  well_formed m'.
Proof.
  intros (Hb & Hc & Hp) Hin Hrem.
  split; [exact (bst_remove _ _ Hb Hrem)|].
  revert m' Hb Hc Hp Hin Hrem.
  induction m as [|size y l IHl r IHr]; [discriminate|].
  intros m' Hb Hc Hp Hin.
  destruct (@present_cases _ _ _ _ _ Hb Hin) as [(Hlt & Hx) | [(Hgt & Hx) | (-> & Hx)]];
    simpl in Hb, Hc, Hp |- *; unfold multiplicity_at in *;
    destruct Hb as (Al & Ar & Bl & Br), Hc as (Hm & Cl & Cr),
             Hp as (Hs & Pl & Pr);
    (destruct (size =? 1) eqn:Hone;
     [intros E; inversion E; simpl; tauto|apply Z.eqb_neq in Hone]).
  - rewrite Hlt.
    destruct (remove l x) as [l'|] eqn:Hl; simpl; [|discriminate].
    intros E; inversion E; subst. simpl. unfold multiplicity_at.
    rewrite (size0_remove _ _ Pl Hl).
    destruct (IHl _ Bl Cl Pl Hx eq_refl) as (? & ?).
    repeat split; auto; lia.
  - unfold gt in *. rewrite (lt_asym _ _ Hgt), Hgt.
    destruct (remove r x) as [r'|] eqn:Hr; simpl; [|discriminate].
    intros E; inversion E; subst. simpl. unfold multiplicity_at.
    rewrite (size0_remove _ _ Pr Hr).
    destruct (IHr _ Br Cr Pr Hx eq_refl) as (? & ?).
    repeat split; auto; lia.
  - unfold gt. rewrite lt_irrefl.
    intros E; inversion E; subst. simpl. unfold multiplicity_at.
    repeat split; auto; lia.
Qed.

End MsbstRemove.

(** ** Contents: the ascending enumeration *)

Section MsbstContent.
Context {A : Type} `{Symbol A}.

Lemma all_nodes_to_sequence (P : A -> Prop) (m : multiset A) (z : A) :
  all_nodes P m -> In z (to_sequence m) -> P z.
Proof.
  intros Hall Hz. exact (all_nodes_stored _ _ _ Hall (to_sequence_stored _ _ Hz)).
Qed.

Lemma insort_app_greater (x : A) (xs ys : list A) :
  (forall z, In z ys -> lt x z = true) ->
  insort x (xs ++ ys) = insort x xs ++ ys.
Proof.
  intros Hys. induction xs as [|h t IH]; simpl.
  - destruct ys as [|h t]; simpl; [reflexivity|].
    rewrite (Hys h) by (left; reflexivity). reflexivity.
  - destruct (lt x h); simpl; [reflexivity|]. now rewrite IH.
Qed.

Lemma insort_app_not_greater (x : A) (xs ys : list A) :
  (forall z, In z xs -> lt x z = false) ->
  insort x (xs ++ ys) = xs ++ insort x ys.
Proof.
  induction xs as [|h t IH]; simpl; [reflexivity|].
  intros Hxs. rewrite (Hxs h) by (left; reflexivity).
  rewrite IH by auto. reflexivity.
Qed.

Lemma insort_perm (x : A) (xs : list A) : Permutation (insort x xs) (x :: xs).
Proof.
  induction xs as [|h t IH]; simpl; [reflexivity|].
  destruct (lt x h); [reflexivity|].
  rewrite IH. apply perm_swap.
Qed.

Lemma insort_sorted (x : A) (xs : list A) :
  StronglySorted le xs -> StronglySorted le (insort x xs).
Proof.
  induction 1 as [|h t Ht IH Hh]; simpl.
  - repeat constructor.
  - destruct (lt x h) eqn:Hxh.
    + constructor; [constructor; assumption|].
      constructor; [exact (lt_asym _ _ Hxh)|].
      rewrite Forall_forall in *. intros z Hz. specialize (Hh z Hz).
      unfold le in *. destruct (lt z x) eqn:Hzx; [|reflexivity].
      rewrite <- Hh. symmetry. exact (lt_trans _ _ _ Hzx Hxh).
    + constructor; [assumption|].
      rewrite Forall_forall in *. intros z Hz.
      apply (Permutation_in _ (insort_perm x t)) in Hz.
      destruct Hz as [<- | Hz]; [exact Hxh|auto].
Qed.

Lemma fold_insort_perm (xs acc : list A) :
  Permutation (fold_left (fun acc x => insort x acc) xs acc) (xs ++ acc).
Proof.
  revert acc. induction xs as [|h t IH]; intros acc; simpl; [reflexivity|].
  rewrite IH, insort_perm. symmetry. apply Permutation_middle.
Qed.

Lemma fold_insort_sorted (xs acc : list A) :
  StronglySorted le acc ->
  StronglySorted le (fold_left (fun acc x => insort x acc) xs acc).
Proof.
  revert acc. induction xs as [|h t IH]; intros acc Hacc; simpl;
    auto using insort_sorted.
Qed.

(** [sorted] sorts. *)
Lemma sorted_perm (xs : list A) : Permutation (sorted xs) xs.
Proof.
  unfold sorted. rewrite fold_insort_perm. now rewrite app_nil_r.
Qed.

Lemma sorted_ascending (xs : list A) : StronglySorted le (sorted xs).
Proof. apply fold_insort_sorted. constructor. Qed.

(** Inserting into the tree inserts into its enumeration. *)
Lemma to_sequence_insert (m : multiset A) (x : A) :
  bst m -> size_consistent 0 m ->
  to_sequence (insert m x) = insort x (to_sequence m).
Proof.
  induction m as [|size y l IHl r IHr]; simpl; [reflexivity|].
  unfold multiplicity_at. intros (Al & Ar & Bl & Br) (Hm & Cl & Cr).
  destruct (compare_cases x y) as [(Hlt & Hgt) | [(Hlt & Hgt) | (Hlt & Hgt & Heq)]];
    rewrite Hlt, ?Hgt; simpl; rewrite ?size0_insert.
  - replace (size + 1 - (size0 l + 1) - size0 r)
      with (size - size0 l - size0 r) by lia.
    rewrite IHl by assumption. symmetry. apply insort_app_greater.
    intros z. rewrite in_app_iff. intros [Hz | Hz].
    + now rewrite (repeat_spec _ _ _ Hz).
    + apply (lt_trans _ _ _ Hlt).
      exact (all_nodes_to_sequence _ _ _ Ar Hz).
  - replace (size + 1 - size0 l - (size0 r + 1))
      with (size - size0 l - size0 r) by lia.
    rewrite IHr by assumption. symmetry.
    rewrite (app_assoc (to_sequence l)).
    rewrite insort_app_not_greater; [now rewrite <- app_assoc|].
    intros z. rewrite in_app_iff. intros [Hz | Hz].
    + apply lt_asym. refine (lt_trans _ _ _ _ Hgt).
      exact (all_nodes_to_sequence _ _ _ Al Hz).
    + now rewrite (repeat_spec _ _ _ Hz).
  - subst y.
    replace (size + 1 - size0 l - size0 r)
      with (Z.succ (size - size0 l - size0 r)) by lia.
    rewrite Z2Nat.inj_succ by lia. simpl.
    rewrite insort_app_not_greater.
    2:{ intros z Hz. apply lt_asym.
        exact (all_nodes_to_sequence _ _ _ Al Hz). }
    f_equal.
    rewrite insort_app_not_greater.
    2:{ intros z Hz. rewrite (repeat_spec _ _ _ Hz). apply lt_irrefl. }
    pose proof (insort_app_greater x [] (to_sequence r)) as Hins.
    simpl in Hins. rewrite Hins.
    2:{ intros z Hz. exact (all_nodes_to_sequence _ _ _ Ar Hz). }
    rewrite app_comm_cons, repeat_cons, <- app_assoc. reflexivity.
Qed.

Lemma to_sequence_fold_insert (xs : list A) (m : multiset A) :
  well_formed m ->
  to_sequence (fold_left insert xs m)
  = fold_left (fun acc x => insort x acc) xs (to_sequence m).
Proof.
  revert m. induction xs as [|h t IH]; intros m Hm; simpl; [reflexivity|].
  rewrite IH by (apply well_formed_insert; assumption).
  destruct Hm as (Hb & Hc & _). now rewrite to_sequence_insert.
Qed.

Lemma well_formed_empty : well_formed (@Empty A).
Proof. repeat split. Qed.

Lemma valid_empty : valid (@Empty A).
Proof. repeat split. Qed.

Lemma valid_build_multiset (xs : list A) : valid (build_multiset xs).
Proof.
  unfold build_multiset. generalize valid_empty. generalize (@Empty A).
  induction xs as [|h t IH]; intros m Hm; simpl; auto using valid_insert.
Qed.

End MsbstContent.

(** ** Slices in terms of the contents *)

Section MsbstSlices.
Context {A : Type} `{Symbol A}.

Lemma count_app (f : A -> bool) (xs ys : list A) :
  count f (xs ++ ys) = count f xs + count f ys.
Proof. unfold count. rewrite filter_app, length_app. lia. Qed.

Lemma count_all (f : A -> bool) (xs : list A) :
  (forall z, In z xs -> f z = true) -> count f xs = Z.of_nat (length xs).
Proof.
  intros Hf. unfold count. do 2 f_equal.
  induction xs as [|h t IH]; simpl; [reflexivity|].
  rewrite (Hf h) by (left; reflexivity). f_equal.
  apply IH. intros z Hz. apply Hf. right. assumption.
Qed.

Lemma count_none (f : A -> bool) (xs : list A) :
  (forall z, In z xs -> f z = false) -> count f xs = 0.
Proof.
  intros Hf. unfold count.
  replace (filter f xs) with (@nil A); [reflexivity|].
  induction xs as [|h t IH]; simpl; [reflexivity|].
  rewrite (Hf h) by (left; reflexivity).
  apply IH. intros z Hz. apply Hf. right. assumption.
Qed.

Lemma length_to_sequence (m : multiset A) :
  size_consistent 0 m -> positive m ->
  Z.of_nat (length (to_sequence m)) = size0 m.
Proof.
  induction m as [|size y l IHl r IHr]; simpl; [reflexivity|].
  unfold multiplicity_at. intros (Hm & Cl & Cr) (Hs & Pl & Pr).
  rewrite !length_app, repeat_length, !Nat2Z.inj_add.
  rewrite IHl, IHr by assumption. lia.
Qed.

(** The slice of a stored symbol: the elements before it, and its
    copies. *)
Lemma forward_lookup_slice (m : multiset A) (x : A) :
  well_formed m -> stored x m ->
  forward_lookup m x = Ok (slice_of (to_sequence m) x).
Proof.
  intros (Hb & Hc & Hp). revert Hb Hc Hp.
  induction m as [|size y l IHl r IHr]; simpl; [tauto|].
  unfold multiplicity_at.
  intros (Al & Ar & Bl & Br) (Hm & Cl & Cr) (Hs & Pl & Pr) Hst.
  pose proof (length_to_sequence _ Cl Pl) as Ll.
  pose proof (length_to_sequence _ Cr Pr) as Lr.
  unfold slice_of. rewrite !count_app.
  destruct (compare_cases x y) as [(Hlt & Hgt) | [(Hlt & Hgt) | (Hlt & Hgt & Heq)]];
    rewrite Hlt, Hgt.
  - assert (stored x l) as Hl.
    { destruct Hst as [-> | [Hl | Hr]]; [|assumption|].
      - rewrite lt_irrefl in Hlt. discriminate.
      - pose proof (all_nodes_stored _ _ _ Ar Hr) as Hyx. simpl in Hyx.
        rewrite (lt_asym _ _ Hyx) in Hlt. discriminate. }
    rewrite IHl by assumption. unfold slice_of.
    rewrite (count_none (fun z => lt z x) (repeat y _)).
    2:{ intros z Hz. now rewrite (repeat_spec _ _ _ Hz). }
    rewrite (count_none (fun z => lt z x) (to_sequence r)).
    2:{ intros z Hz. apply lt_asym, (lt_trans _ _ _ Hlt).
        exact (all_nodes_to_sequence _ _ _ Ar Hz). }
    rewrite (count_none _ (repeat y _)).
    2:{ intros z Hz. rewrite (repeat_spec _ _ _ Hz), Hlt.
        apply andb_false_r. }
    rewrite (count_none _ (to_sequence r)).
    2:{ intros z Hz.
        rewrite (lt_trans _ _ _ Hlt (all_nodes_to_sequence _ _ _ Ar Hz)).
        apply andb_false_r. }
    do 2 f_equal; lia.
  - unfold gt in Hgt.
    assert (stored x r) as Hr.
    { destruct Hst as [-> | [Hl | Hr]]; [| |assumption].
      - rewrite lt_irrefl in Hgt. discriminate.
      - pose proof (all_nodes_stored _ _ _ Al Hl) as Hxy. simpl in Hxy.
        rewrite Hxy in Hlt. discriminate. }
    rewrite IHr by assumption. simpl.
    rewrite item0_positive by (destruct r; [destruct Hr|discriminate]).
    simpl. unfold slice_of.
    rewrite (count_all (fun z => lt z x) (to_sequence l)).
    2:{ intros z Hz.
        exact (lt_trans _ _ _ (all_nodes_to_sequence _ _ _ Al Hz) Hgt). }
    rewrite (count_all (fun z => lt z x) (repeat y _)).
    2:{ intros z Hz. now rewrite (repeat_spec _ _ _ Hz). }
    rewrite (count_none _ (to_sequence l)).
    2:{ intros z Hz.
        rewrite (lt_trans _ _ _ (all_nodes_to_sequence _ _ _ Al Hz) Hgt).
        reflexivity. }
    rewrite (count_none _ (repeat y _)).
    2:{ intros z Hz. rewrite (repeat_spec _ _ _ Hz), Hgt. reflexivity. }
    rewrite repeat_length, Z2Nat.id by lia.
    do 2 f_equal; lia.
  - subst y.
    rewrite (count_all (fun z => lt z x) (to_sequence l)).
    2:{ intros z Hz. exact (all_nodes_to_sequence _ _ _ Al Hz). }
    rewrite (count_none (fun z => lt z x) (repeat x _)).
    2:{ intros z Hz. rewrite (repeat_spec _ _ _ Hz). apply lt_irrefl. }
    rewrite (count_none (fun z => lt z x) (to_sequence r)).
    2:{ intros z Hz. apply lt_asym.
        exact (all_nodes_to_sequence _ _ _ Ar Hz). }
    rewrite (count_none _ (to_sequence l)).
    2:{ intros z Hz. rewrite (all_nodes_to_sequence _ _ _ Al Hz).
        reflexivity. }
    rewrite (count_all _ (repeat x _)).
    2:{ intros z Hz. rewrite (repeat_spec _ _ _ Hz), lt_irrefl.
        reflexivity. }
    rewrite (count_none _ (to_sequence r)).
    2:{ intros z Hz. rewrite (all_nodes_to_sequence _ _ _ Ar Hz).
        apply andb_false_r. }
    rewrite repeat_length, Z2Nat.id by lia.
    do 2 f_equal; lia.
Qed.

(** *** When the lookup fails *)

Lemma forward_lookup_raises (m : multiset A) (x : A) :
  forward_lookup m x = Raise ValueError <-> search_reaches_empty m x.
Proof.
  induction m as [|size y l IHl r IHr]; simpl; [tauto|].
  destruct (gt x y).
  - rewrite <- IHr.
    destruct (forward_lookup r x) as [[sr fr]|e] eqn:Hr; simpl.
    + assert (r <> Empty) as Hne by (destruct r; [discriminate|discriminate]).
      rewrite (item0_positive Hne). simpl. split; discriminate.
    + tauto.
  - destruct (lt x y); [assumption|]. split; [discriminate|tauto].
Qed.

Lemma forward_lookup_raise_kind (m : multiset A) (x : A) (e : exn) :
  forward_lookup m x = Raise e -> e = ValueError.
Proof.
  induction m as [|size y l IHl r IHr]; simpl.
  - intros E; inversion E; reflexivity.
  - destruct (gt x y).
    + destruct (forward_lookup r x) as [[sr fr]|e'] eqn:Hr; simpl.
      * destruct r; simpl in *; discriminate.
      * intros E; inversion E; subst. auto.
    + destruct (lt x y); [assumption|discriminate].
Qed.

Lemma search_reaches_empty_not_stored (m : multiset A) (x : A) :
  bst m -> search_reaches_empty m x <-> ~ stored x m.
Proof.
  induction m as [|size y l IHl r IHr]; simpl; [tauto|].
  intros (Al & Ar & Bl & Br).
  destruct (compare_cases x y) as [(Hlt & Hgt) | [(Hlt & Hgt) | (Hlt & Hgt & Heq)]];
    rewrite Hlt, Hgt.
  - rewrite (IHl Bl). split.
    + intros Hn [-> | [Hl | Hr]]; [|tauto|].
      * rewrite lt_irrefl in Hlt. discriminate.
      * pose proof (all_nodes_stored _ _ _ Ar Hr) as Hyx. simpl in Hyx.
        rewrite (lt_asym _ _ Hyx) in Hlt. discriminate.
    + tauto.
  - rewrite (IHr Br). unfold gt in Hgt. split.
    + intros Hn [-> | [Hl | Hr]]; [| |tauto].
      * rewrite lt_irrefl in Hgt. discriminate.
      * pose proof (all_nodes_stored _ _ _ Al Hl) as Hxy. simpl in Hxy.
        rewrite Hxy in Hlt. discriminate.
    + tauto.
  - tauto.
Qed.

End MsbstSlices.

(** ** What a removal leaves *)

Section MsbstRemoveContent.
Context {A : Type} `{Symbol A}.

Lemma stored_insert (m : multiset A) (x : A) : stored x (insert m x).
Proof.
  induction m as [|size y l IHl r IHr]; simpl; [auto|].
  destruct (compare_cases x y) as [(Hlt & Hgt) | [(Hlt & Hgt) | (Hlt & Hgt & Heq)]];
    rewrite Hlt, ?Hgt; simpl; auto.
Qed.

Lemma singleton_sequence (xs : list A) (x : A) :
  length xs = 1%nat -> In x xs -> xs = [x].
Proof.
  destruct xs as [|h [|h' t]]; simpl; try discriminate.
  intros _ [-> | []]. reflexivity.
Qed.

(** The enumeration before a removal is the one after it with the
    symbol put back. *)
Lemma to_sequence_remove (m m' : multiset A) (x : A) :
  well_formed m -> In x (to_sequence m) -> remove m x = Ok m' ->
  to_sequence m = insort x (to_sequence m').
Proof.
  intros (Hb & Hc & Hp). revert m' Hb Hc Hp.
  induction m as [|size y l IHl r IHr]; [discriminate|].
  intros m' Hb Hc Hp Hin.
  pose proof (length_to_sequence _ Hc Hp) as Hlen.
  destruct (@present_cases _ _ _ _ _ _ _ Hb Hin)
    as [(Hlt & Hx) | [(Hgt & Hx) | (Heq & Hx)]];
    simpl in Hb, Hc, Hp |- *; unfold multiplicity_at in *;
    destruct Hb as (Al & Ar & Bl & Br), Hc as (Hm & Cl & Cr),
             Hp as (Hs & Pl & Pr);
    (destruct (size =? 1) eqn:Hone;
     [apply Z.eqb_eq in Hone; intros E; inversion E; subst m' size;
      simpl in Hlen |- *; apply singleton_sequence; [lia|exact Hin]
     |apply Z.eqb_neq in Hone]).
  - rewrite Hlt.
    destruct (remove l x) as [l'|] eqn:Hl; simpl; [|discriminate].
    intros E; inversion E; subst. simpl.
    rewrite (size0_remove _ _ Pl Hl).
    replace (size - 1 - (size0 l - 1) - size0 r)
      with (size - size0 l - size0 r) by lia.
    rewrite (IHl _ Bl Cl Pl Hx eq_refl).
    symmetry. apply insort_app_greater.
    intros z. rewrite in_app_iff. intros [Hz | Hz].
    + now rewrite (repeat_spec _ _ _ Hz).
    + apply (lt_trans _ _ _ Hlt).
      exact (all_nodes_to_sequence _ _ _ Ar Hz).
  - unfold gt in *. rewrite (lt_asym _ _ Hgt), Hgt.
    destruct (remove r x) as [r'|] eqn:Hr; simpl; [|discriminate].
    intros E; inversion E; subst. simpl.
    rewrite (size0_remove _ _ Pr Hr).
    replace (size - 1 - size0 l - (size0 r - 1))
      with (size - size0 l - size0 r) by lia.
    rewrite (IHr _ Br Cr Pr Hx eq_refl).
    symmetry. rewrite (app_assoc (to_sequence l)).
    rewrite insort_app_not_greater; [now rewrite <- app_assoc|].
    intros z. rewrite in_app_iff. intros [Hz | Hz].
    + apply lt_asym. refine (lt_trans _ _ _ _ Hgt).
      exact (all_nodes_to_sequence _ _ _ Al Hz).
    + rewrite (repeat_spec _ _ _ Hz). exact (lt_asym _ _ Hgt).
  - subst y. unfold gt. rewrite lt_irrefl.
    intros E; inversion E; subst. simpl.
    replace (size - size0 l - size0 r)
      with (Z.succ (size - 1 - size0 l - size0 r)) by lia.
    rewrite Z2Nat.inj_succ by lia. simpl.
    rewrite insort_app_not_greater.
    2:{ intros z Hz. apply lt_asym.
        exact (all_nodes_to_sequence _ _ _ Al Hz). }
    f_equal.
    rewrite insort_app_not_greater.
    2:{ intros z Hz. rewrite (repeat_spec _ _ _ Hz). apply lt_irrefl. }
    pose proof (insort_app_greater x [] (to_sequence r)) as Hins.
    simpl in Hins. rewrite Hins.
    2:{ intros z Hz. exact (all_nodes_to_sequence _ _ _ Ar Hz). }
    rewrite app_comm_cons, repeat_cons, <- app_assoc. reflexivity.
Qed.

Lemma well_formed_size0_zero (m : multiset A) :
  well_formed m -> size0 m = 0 -> m = Empty.
Proof.
  intros (_ & _ & Hp). destruct m; simpl in *; [reflexivity|lia].
Qed.

End MsbstRemoveContent.

(** ** The properties of the search tree *)

Section MsbstClaims.
Context {A : Type} `{Symbol A}.

Lemma count_positive (f : A -> bool) (xs : list A) :
  1 <= count f xs -> exists z, In z xs /\ f z = true.
Proof.
  unfold count. induction xs as [|h t IH]; simpl; [lia|].
  destruct (f h) eqn:Hh; [eauto|].
  intros Hc. destruct (IH Hc) as (z & Hz & Hfz). eauto.
Qed.

(** The symbol that a valid index finds has a copy in the tree. *)
Lemma reverse_lookup_present (m : multiset A) (idx : Z) sl (x : A) :
  well_formed m -> 0 <= idx < size0 m ->
  reverse_lookup m idx = Ok (sl, x) ->
  In x (to_sequence m).
Proof.
  intros Hwf Hidx Hrev.
  pose proof Hwf as (Hb & Hc & Hp).
  destruct (reverse_lookup_total _ Hc Hp Hidx)
    as (s & f & x' & Hrev' & Hin & _).
  rewrite Hrev in Hrev'. inversion Hrev'; subst.
  pose proof (forward_lookup_reverse _ _ Hb Hrev) as Hfwd.
  rewrite (forward_lookup_slice _ Hwf (reverse_lookup_stored _ _ Hrev)) in Hfwd.
  inversion Hfwd as [[Hs Hf]].
  destruct (count_positive (fun z => negb (lt z x') && negb (lt x' z))
              (to_sequence m)) as (z & Hz & Heq); [lia|].
  apply andb_prop in Heq as (Hzx & Hxz).
  apply negb_true_iff in Hzx, Hxz.
  now rewrite (lt_total _ _ Hxz Hzx).
Qed.

(** C3, as amended: every tree that the four mutators produce from the
    empty one is a search tree whose nodes have a positive size and a
    pivot multiplicity [size - left.size - right.size] of at least 0; a
    pivot whose copies were all removed stays in place while its
    subtree holds other symbols. *)
Theorem reachable_well_formed (m : multiset A) :
  reachable m -> well_formed m.
Proof.
  induction 1 as [|m x _ IH|m x m' _ IH Hin Hrem|m x _ IH
                  |m idx m' sl x _ IH Hidx Hrem].
  - apply well_formed_empty.
  - apply well_formed_insert; assumption.
  - exact (well_formed_remove _ IH Hin Hrem).
  - rewrite insert_then_forward_lookup_fst.
    apply well_formed_insert; assumption.
  - pose proof IH as (Hb & Hc & Hp).
    destruct (reverse_lookup_total _ Hc Hp Hidx)
      as (s & f & x' & Hrev & _).
    destruct (reverse_lookup_then_remove_fused _ _ Hb Hrev)
      as (m'' & Hremove & Hfused).
    rewrite Hrem in Hfused. inversion Hfused; subst.
    exact (well_formed_remove _ IH (reverse_lookup_present IH Hidx Hrev)
             Hremove).
Qed.

(** C4: after [insert(m, x)] the slice of [x] is not empty, and every
    index of the slice leads [reverse_lookup] to that slice and to
    [x]. *)
Theorem insert_lookup_consistent (m : multiset A) (x : A) :
  valid m ->
  exists start freq,
    forward_lookup (insert m x) x = Ok (start, freq) /\
    1 <= freq /\
    forall idx, start <= idx < start + freq ->
      reverse_lookup (insert m x) idx = Ok ((start, freq), x).
Proof.
  intros Hv. apply valid_well_formed in Hv.
  pose proof Hv as (_ & Hc & _).
  destruct (forward_lookup_insert_freq _ x Hc) as (start & freq & Hfwd & Hf).
  exists start, freq. repeat split; [assumption|lia|].
  intros idx Hidx.
  destruct (well_formed_insert x Hv) as (_ & Hc' & Hp').
  exact (reverse_lookup_forward _ _ Hc' Hp' Hfwd Hidx).
Qed.

(** C5: the fused operations are the compositions of the plain ones.
    [insert_then_forward_lookup] returns the tree after the insertion
    with the slice looked up in it; [reverse_lookup_then_remove] returns
    the slice and the symbol looked up before the removal, with the tree
    after [remove] of that symbol. *)
Theorem fused_operations (m : multiset A) :
  valid m ->
  (forall x, exists sl,
      forward_lookup (insert m x) x = Ok sl /\
      insert_then_forward_lookup m x = (insert m x, sl)) /\
  (forall idx, 0 <= idx < size0 m ->
     exists sl x m',
       reverse_lookup m idx = Ok (sl, x) /\
       remove m x = Ok m' /\
       reverse_lookup_then_remove m idx = Ok (m', sl, x)).
Proof.
  intros Hv. apply valid_well_formed in Hv.
  destruct Hv as (Hb & Hc & Hp). split.
  - intros x. exists (snd (insert_then_forward_lookup m x)).
    split; [apply forward_lookup_insert|].
    rewrite <- insert_then_forward_lookup_fst.
    now destruct (insert_then_forward_lookup m x).
  - intros idx Hidx.
    destruct (reverse_lookup_total _ Hc Hp Hidx)
      as (s & f & x & Hrev & _).
    destruct (reverse_lookup_then_remove_fused _ _ Hb Hrev)
      as (m' & Hremove & Hfused).
    exists (s, f), x, m'. auto.
Qed.

(** C6: [to_sequence(build_multiset(xs))] is [sorted(xs)]: the symbols
    of [xs], each as often as it occurs, in ascending order. *)
Theorem to_sequence_build_multiset (xs : list A) :
  to_sequence (build_multiset xs) = sorted xs /\
  Permutation (to_sequence (build_multiset xs)) xs /\
  StronglySorted le (to_sequence (build_multiset xs)).
Proof.
  assert (to_sequence (build_multiset xs) = sorted xs) as Heq.
  { unfold build_multiset, sorted.
    now rewrite to_sequence_fold_insert by apply well_formed_empty. }
  rewrite Heq. auto using sorted_perm, sorted_ascending.
Qed.

(** C7: [remove] is a left inverse of [insert] on valid trees, up to
    the very tuples; the tree with the one symbol [x] collapses to the
    empty one. *)
Theorem remove_insert (m : multiset A) (x : A) :
  valid m ->
  remove (insert m x) x = Ok m /\
  remove (insert Empty x) x = Ok Empty.
Proof.
  intros Hv. split.
  - apply remove_insert_positive.
    now destruct (valid_well_formed Hv) as (_ & _ & Hp).
  - reflexivity.
Qed.

(** C10: [forward_lookup] raises exactly when its walk reaches an empty
    subtree, which in a valid tree is exactly when no node stores [x];
    for a stored [x] it returns the slice of [x]: the number of
    elements below [x] and the number of copies of [x].  The tree is a
    value, so the lookup leaves it as it is. *)
Theorem forward_lookup_error (m : multiset A) (x : A) :
  valid m ->
  (forward_lookup m x = Raise ValueError <-> search_reaches_empty m x) /\
  (search_reaches_empty m x <-> ~ stored x m) /\
  (forall e, forward_lookup m x = Raise e -> e = ValueError) /\
  (stored x m ->
   forward_lookup m x = Ok (slice_of (to_sequence m) x) /\
   1 <= snd (slice_of (to_sequence m) x)).
Proof.
  intros Hv. pose proof (valid_well_formed Hv) as Hwf.
  destruct Hv as (Hb & Hc1).
  split; [apply forward_lookup_raises|].
  split; [apply search_reaches_empty_not_stored; assumption|].
  split.
  - apply forward_lookup_raise_kind.
  - intros Hst. split; [apply forward_lookup_slice; assumption|]. simpl.
    revert Hb Hc1 Hst. clear Hwf.
    induction m as [|size y l IHl r IHr]; simpl; [tauto|].
    unfold multiplicity_at. intros (Al & Ar & Bl & Br) (Hm & Cl & Cr) Hst.
    rewrite !count_app.
    assert (forall f (ys : list A), 0 <= count f ys) as Hnn
      by (intros; unfold count; lia).
    destruct Hst as [-> | [Hl | Hr]].
    + rewrite (count_all _ (repeat y _)).
      2:{ intros z Hz. rewrite (repeat_spec _ _ _ Hz), lt_irrefl.
          reflexivity. }
      rewrite repeat_length, Z2Nat.id by lia.
      pose proof (Hnn (fun z => negb (lt z y) && negb (lt y z))
                    (to_sequence l)).
      pose proof (Hnn (fun z => negb (lt z y) && negb (lt y z))
                    (to_sequence r)).
      lia.
    + specialize (IHl Bl Cl Hl).
      pose proof (Hnn (fun z => negb (lt z x) && negb (lt x z))
                    (repeat y (Z.to_nat (size - size0 l - size0 r)))).
      pose proof (Hnn (fun z => negb (lt z x) && negb (lt x z))
                    (to_sequence r)).
      lia.
    + specialize (IHr Br Cr Hr).
      pose proof (Hnn (fun z => negb (lt z x) && negb (lt x z))
                    (repeat y (Z.to_nat (size - size0 l - size0 r)))).
      pose proof (Hnn (fun z => negb (lt z x) && negb (lt x z))
                    (to_sequence l)).
      lia.
Qed.

End MsbstClaims.

(** ** The properties at the trees of the test suite *)

Ltac solve_invariant :=
  unfold valid, well_formed; simpl; unfold multiplicity_at; simpl;
  repeat split; try reflexivity; try lia.

Lemma tree4_valid : valid Tests.tree4.
Proof. solve_invariant. Qed.

Lemma tree8_valid : valid Tests.tree8.
Proof. solve_invariant. Qed.

(** The fused removal at index 1 of the tree with one ["a"] and one
    ["b"] takes the root's only copy. *)
Lemma ghost_tree_reachable : reachable Tests.ghost_tree.
Proof.
  apply reach_reverse_lookup_then_remove
    with (m := insert (insert Empty "b"%char) "a"%char) (idx := 1)
         (sl := (1, 1)) (x := "b"%char).
  - do 2 apply reach_insert. apply reach_empty.
  - simpl. lia.
  - reflexivity.
Qed.

(** So does [remove] of ["b"]. *)
Lemma ghost_tree_by_remove :
  remove (insert (insert Empty "b"%char) "a"%char) "b"%char
  = Ok Tests.ghost_tree.
Proof. reflexivity. Qed.

(** C3 as stated fails: after [insert "b"], [insert "a"] and the
    removal of ["b"], by [reverse_lookup_then_remove] at index 1 or by
    [remove], the root has size 1 and a left child of size 1, so the
    pivot ["b"] has multiplicity 0. *)
Lemma reachable_not_valid :
  reachable Tests.ghost_tree /\ ~ valid Tests.ghost_tree.
Proof.
  split; [exact ghost_tree_reachable|].
  unfold valid. simpl. unfold multiplicity_at. simpl. lia.
Qed.

Lemma reachable_well_formed_witness :
  reachable Tests.ghost_tree /\ well_formed Tests.ghost_tree.
Proof.
  split; [exact ghost_tree_reachable|].
  apply reachable_well_formed. exact ghost_tree_reachable.
Defined.

Lemma insert_lookup_consistent_witness :
  valid Tests.tree4 /\
  exists start freq,
    forward_lookup (insert Tests.tree4 "c"%char) "c"%char = Ok (start, freq) /\
    1 <= freq /\
    forall idx, start <= idx < start + freq ->
      reverse_lookup (insert Tests.tree4 "c"%char) idx
      = Ok ((start, freq), "c"%char).
Proof.
  split; [exact tree4_valid|].
  apply insert_lookup_consistent. exact tree4_valid.
Defined.

Lemma fused_operations_witness :
  valid Tests.tree8 /\
  exists sl x m',
    reverse_lookup Tests.tree8 3 = Ok (sl, x) /\
    remove Tests.tree8 x = Ok m' /\
    reverse_lookup_then_remove Tests.tree8 3 = Ok (m', sl, x).
Proof.
  split; [exact tree8_valid|].
  apply (fused_operations tree8_valid). simpl. lia.
Defined.

Lemma remove_insert_witness :
  valid Tests.tree4 /\
  remove (insert Tests.tree4 "a"%char) "a"%char = Ok Tests.tree4.
Proof.
  split; [exact tree4_valid|].
  apply (remove_insert "a"%char tree4_valid).
Defined.

Lemma forward_lookup_error_witness :
  valid Tests.tree8 /\
  (forward_lookup Tests.tree8 "g"%char = Raise ValueError <->
   search_reaches_empty Tests.tree8 "g"%char).
Proof.
  split; [exact tree8_valid|].
  apply (forward_lookup_error "g"%char tree8_valid).
Defined.

(** ** The two fused operations, as the sampler uses them *)

Section MsbstSampling.
Context {A : Type} `{Symbol A}.

Lemma reverse_lookup_then_remove_outside (m : multiset A) (idx : Z) :
  well_formed m ->
  (idx < 0 -> reverse_lookup_then_remove m idx = Raise ValueError) /\
  (size0 m <= idx -> m <> Empty ->
   reverse_lookup_then_remove m idx = Raise IndexError).
Proof.
  intros (_ & Hc & Hp). split.
  - revert Hc Hp. induction m as [|size y l IHl r IHr]; simpl;
      [reflexivity|].
    intros (Hm & Cl & Cr) (Hs & Pl & Pr) Hidx.
    pose proof (positive_size0 _ Pl).
    replace (idx <? size0 l) with true by (symmetry; apply Z.ltb_lt; lia).
    now rewrite IHl.
  - revert idx Hc Hp. induction m as [|size y l IHl r IHr]; simpl;
      [congruence|].
    unfold multiplicity_at. intros idx (Hm & Cl & Cr) (Hs & Pl & Pr) Hidx _.
    pose proof (positive_size0 _ Pl). pose proof (positive_size0 _ Pr).
    replace (idx <? size0 l) with false by (symmetry; apply Z.ltb_ge; lia).
    replace (idx >=? size0 l + (size - size0 l - size0 r)) with true
      by (symmetry; apply Z.geb_le; lia).
    destruct r as [|rsize ry rl rr]; [reflexivity|].
    cbn [item0 bind].
    rewrite IHr; [reflexivity|assumption|assumption| |discriminate].
    simpl. lia.
Qed.

(** So a fused removal that returns was asked for an index in range. *)
Lemma reverse_lookup_then_remove_in_range (m : multiset A) (idx : Z)
    (r : multiset A * (Z * Z) * A) :
  well_formed m -> reverse_lookup_then_remove m idx = Ok r ->
  0 <= idx < size0 m.
Proof.
  intros Hwf Hok.
  destruct (reverse_lookup_then_remove_outside idx Hwf) as (Hneg & Hbig).
  destruct (Z.lt_ge_cases idx 0) as [Hlt | Hge];
    [rewrite (Hneg Hlt) in Hok; discriminate|].
  destruct (Z.lt_ge_cases idx (size0 m)) as [Hin | Hout]; [lia|].
  destruct m as [|size y l r']; [discriminate|].
  rewrite (Hbig Hout) in Hok; discriminate.
Qed.

(** The slice of a removed symbol, computed again in a tree of any
    shape that holds what is left. *)
Lemma slice_recomputed (M M1 N : multiset A) (idx : Z) (sl : Z * Z)
    (x : A) :
  well_formed M -> 0 <= idx < size0 M ->
  reverse_lookup M idx = Ok (sl, x) -> remove M x = Ok M1 ->
  well_formed N -> to_sequence N = to_sequence M1 ->
  insert_then_forward_lookup N x = (insert N x, sl) /\
  size0 (insert N x) = size0 M.
Proof.
  intros Hwf Hidx Hrev Hrem HN Hcontents. pose proof Hwf as (Hb & Hc & Hp).
  pose proof (reverse_lookup_present Hwf Hidx Hrev) as Hpresent.
  pose proof (insert_then_forward_lookup_fst N x) as Hfst.
  pose proof (forward_lookup_insert N x) as Hsnd.
  destruct (insert_then_forward_lookup N x) as [N' sl'].
  simpl in Hfst, Hsnd. subst N'.
  pose proof (well_formed_insert x HN) as HN'.
  rewrite (forward_lookup_slice _ HN' (stored_insert N x)) in Hsnd.
  destruct HN as (HNb & HNc & HNp).
  rewrite (to_sequence_insert _ x HNb HNc), Hcontents in Hsnd.
  rewrite <- (to_sequence_remove _ Hwf Hpresent Hrem) in Hsnd.
  rewrite <- (forward_lookup_slice _ Hwf (reverse_lookup_stored _ _ Hrev))
    in Hsnd.
  rewrite (forward_lookup_reverse _ _ Hb Hrev) in Hsnd.
  inversion Hsnd; subst sl'.
  split; [reflexivity|].
  rewrite size0_insert.
  rewrite <- (length_to_sequence _ HNc HNp), Hcontents.
  destruct (well_formed_remove _ Hwf Hpresent Hrem) as (_ & Hc1 & Hp1).
  rewrite (length_to_sequence _ Hc1 Hp1).
  rewrite (size0_remove _ _ Hp Hrem). lia.
Qed.

End MsbstSampling.

(** ** The engine of the examples is exact *)

Lemma encode_lane_cf (x start freq p : Z) :
  slice_ok p start freq ->
  ((x / freq) * p + x mod freq + start) mod p = x mod freq + start /\
  ((x / freq) * p + x mod freq + start) / p = x / freq.
Proof.
  intros (Hs & Hf & Hp).
  pose proof (Z.mod_pos_bound x freq ltac:(lia)) as Hm.
  replace (x / freq * p + x mod freq + start)
    with ((x mod freq + start) + (x / freq) * p) by lia.
  split.
  - rewrite Z_mod_plus_full. apply Z.mod_small. lia.
  - rewrite Z_div_plus_full by lia. rewrite Z.div_small by lia. lia.
Qed.

Lemma pop_lane_encode (x start freq p : Z) :
  slice_ok p start freq ->
  let y := (x / freq) * p + x mod freq + start in
  freq * (y / p) + y mod p - start = x.
Proof.
  intros Hok y. destruct (encode_lane_cf x Hok) as (Hmod & Hdiv).
  subst y. rewrite Hmod, Hdiv.
  destruct Hok as (_ & Hf & _).
  pose proof (Z.div_mod x freq ltac:(lia)). lia.
Qed.

Lemma encode_lane_pop (x start freq p : Z) :
  slice_ok p start freq ->
  start <= x mod p < start + freq ->
  let y := freq * (x / p) + x mod p - start in
  (y / freq) * p + y mod freq + start = x.
Proof.
  intros (Hs & Hf & Hp) Hcf y.
  assert (y = (x mod p - start) + (x / p) * freq) as Hy by (subst y; lia).
  assert (y mod freq = x mod p - start) as Hmod.
  { rewrite Hy, Z_mod_plus_full. apply Z.mod_small. lia. }
  assert (y / freq = x / p) as Hdiv.
  { rewrite Hy, Z_div_plus_full by lia. rewrite Z.div_small by lia. lia. }
  rewrite Hmod, Hdiv.
  pose proof (Z.div_mod x p ltac:(lia)). lia.
Qed.

Lemma encode_lanes_length (p : Z) (h starts freqs : list Z) :
  length (encode_lanes p h starts freqs) = length h.
Proof.
  revert starts freqs. induction h as [|x h IH]; intros; simpl; auto.
Qed.

Lemma pop_lanes_length (p : Z) (h starts freqs : list Z) :
  length (pop_lanes p h starts freqs) = length h.
Proof.
  revert starts freqs. induction h as [|x h IH]; intros; simpl; auto.
Qed.

Lemma ideal_decode_encode (h starts freqs : list Z) (p : Z) :
  slices_ok p (length h) starts freqs ->
  within (map (fun x => x mod p) (encode_lanes p h starts freqs))
         starts freqs /\
  pop_lanes p (encode_lanes p h starts freqs) starts freqs = h.
Proof.
  intros (Hls & Hlf & Hall). revert h Hls Hlf.
  induction Hall as [|start freq starts freqs Hok Hall IH];
    intros [|x h] Hls Hlf; simpl in *; try discriminate.
  - split; [constructor|reflexivity].
  - destruct (IH h) as (Hin & Hpop); [congruence|congruence|].
    destruct (encode_lane_cf x Hok) as (Hmod & _).
    split.
    + constructor; [|exact Hin]. simpl. rewrite Hmod.
      destruct Hok as (_ & Hf & _).
      pose proof (Z.mod_pos_bound x freq ltac:(lia)). lia.
    + rewrite Hpop. f_equal. exact (pop_lane_encode x Hok).
Qed.

Lemma ideal_encode_decode (h starts freqs : list Z) (p : Z) :
  slices_ok p (length h) starts freqs ->
  within (map (fun x => x mod p) h) starts freqs ->
  encode_lanes p (pop_lanes p h starts freqs) starts freqs = h.
Proof.
  intros (Hls & Hlf & Hall). revert h Hls Hlf.
  induction Hall as [|start freq starts freqs Hok Hall IH];
    intros [|x h] Hls Hlf Hin; simpl in *; try discriminate.
  - reflexivity.
  - inversion Hin as [|? ? ? ? Hcf Hin']; subst. simpl in Hcf.
    rewrite IH by (congruence || assumption).
    f_equal. exact (encode_lane_pop x Hok Hcf).
Qed.

Lemma ideal_decode_range (h : list Z) (p : Z) :
  1 <= p -> Forall (fun cf => 0 <= cf < p) (map (fun x => x mod p) h).
Proof.
  intros Hp. apply Forall_map, Forall_forall. intros x _.
  apply Z.mod_pos_bound. lia.
Qed.

#[export] Instance Ideal : Rans.
Proof.
  refine {| tail := list Z;
            rans_encode := ideal_encode;
            rans_decode := ideal_decode |}.
  - intros [h t] starts freqs p st' E. inversion E; subst.
    apply encode_lanes_length.
  - intros [h t] starts freqs p st' E. inversion E; subst.
    apply pop_lanes_length.
  - intros [h t] p. apply length_map.
Defined.

#[export] Instance Ideal_exact : Exact Ideal.
Proof.
  split.
  - intros [h t] p. apply ideal_decode_range.
  - intros [h t] starts freqs p Hok.
    destruct (ideal_decode_encode h Hok) as (Hin & Hpop).
    eexists. split; [reflexivity|]. split; [exact Hin|].
    simpl. now rewrite Hpop.
  - intros [h t] starts freqs p Hok Hin.
    eexists. split; [reflexivity|]. simpl.
    unfold ideal_encode. simpl.
    now rewrite (ideal_encode_decode h Hok Hin).
Qed.

(** ** Views of the head, and the uniform codec *)

Section CodecFacts.
Context `{R : Rans}.

Lemma firstn_update (n : nat) (h subhead : head) :
  length subhead = length (firstn n h) ->
  firstn n (subhead ++ skipn n h) = subhead.
Proof.
  intros Hlen. rewrite length_firstn in Hlen.
  rewrite firstn_app.
  destruct (Nat.le_gt_cases n (length h)) as [Hn | Hn].
  - rewrite Nat.min_l in Hlen by assumption.
    rewrite firstn_all2 by lia.
    replace (n - length subhead)%nat with 0%nat by lia.
    simpl. apply app_nil_r.
  - rewrite (skipn_all2 h) by lia.
    rewrite firstn_all2 by lia. rewrite firstn_nil. apply app_nil_r.
Qed.

Lemma skipn_update (n : nat) (h subhead : head) :
  length subhead = length (firstn n h) ->
  skipn n (subhead ++ skipn n h) = skipn n h.
Proof.
  intros Hlen. rewrite length_firstn in Hlen.
  rewrite skipn_app.
  destruct (Nat.le_gt_cases n (length h)) as [Hn | Hn].
  - rewrite Nat.min_l in Hlen by assumption.
    rewrite (skipn_all2 subhead) by lia.
    replace (n - length subhead)%nat with 0%nat by lia.
    reflexivity.
  - rewrite (skipn_all2 h) by lia.
    rewrite (skipn_all2 subhead) by lia. rewrite skipn_nil. reflexivity.
Qed.

Lemma substack_encode_eq {S Ctx : Type} (codec : Codec S Ctx) (n : nat)
    (h : head) (t : tail) (x : S) (c : Ctx) :
  encode (substack codec n) (h, t) x c =
  ('((subhead', t'), c') <- encode codec (firstn n h, t) x c ;;
   Ok ((subhead' ++ skipn n h, t'), c')).
Proof. reflexivity. Qed.

Lemma substack_decode_eq {S Ctx : Type} (codec : Codec S Ctx) (n : nat)
    (h : head) (t : tail) (c : Ctx) :
  decode (substack codec n) (h, t) c =
  ('((subhead', t'), x, c') <- decode codec (firstn n h, t) c ;;
   Ok ((subhead' ++ skipn n h, t'), x, c')).
Proof. reflexivity. Qed.

(** A codec that brings a symbol back on the viewed lanes brings it
    back under [substack]. *)
Lemma substack_roundtrip {S Ctx : Type} (codec : Codec S Ctx) (n : nat)
    (h : head) (t : tail) (x y : S) (c c' c'' : Ctx) (sub' : ans_state) :
  encode codec (firstn n h, t) x c = Ok (sub', c') ->
  lanes sub' = length (firstn n h) ->
  decode codec sub' c' = Ok ((firstn n h, t), y, c'') ->
  let st' := (fst sub' ++ skipn n h, snd sub') in
  encode (substack codec n) (h, t) x c = Ok (st', c') /\
  decode (substack codec n) st' c' = Ok ((h, t), y, c'') /\
  lanes st' = length h.
Proof.
  intros Henc Hshape Hdec st'. destruct sub' as [sh' t'].
  unfold lanes in Hshape. simpl in Hshape. subst st'. simpl.
  rewrite Henc. simpl. split; [reflexivity|].
  rewrite (firstn_update n h sh' Hshape), Hdec. simpl.
  rewrite (skipn_update n h sh' Hshape), firstn_skipn.
  split; [reflexivity|].
  unfold lanes. simpl. rewrite length_app, Hshape, <- length_app.
  now rewrite firstn_skipn.
Qed.

Lemma slices_ok_uniform (prec : Z) (n : nat) (symbol : operand) :
  fits prec n symbol ->
  slices_ok prec n (broadcast n symbol) (broadcast n (Num 1)).
Proof.
  intros (Hlen & Hall). simpl. repeat split; [assumption|apply repeat_length|].
  revert Hlen Hall. generalize (broadcast n symbol) as xs. clear symbol.
  induction n as [|n IH]; intros [|x xs] Hlen Hall; simpl in *;
    try discriminate; constructor.
  - inversion Hall; subst. unfold slice_ok. lia.
  - inversion Hall; subst. apply IH; [congruence|assumption].
Qed.

Lemma within_uniform (n : nat) (cfs xs : list Z) :
  length xs = n -> within cfs xs (repeat 1 n) -> cfs = xs.
Proof.
  unfold within. revert cfs xs.
  induction n as [|n IH]; intros cfs [|x xs] Hlen Hin; simpl in *;
    try discriminate; inversion Hin; subst; [reflexivity|].
  simpl in *. f_equal; [lia|]. apply IH; [congruence|assumption].
Qed.

(** What [Uniform(prec).decode] returns, whatever the engine: the
    array of the indices, one for each lane, and a state of the same
    shape. *)
Lemma Uniform_decode_shape (prec : Z) (st st' : ans_state)
    (symbol : operand) :
  decode (Uniform prec) st tt = Ok (st', symbol, tt) ->
  lanes st' = lanes st /\
  exists cfs, symbol = Arr cfs /\ length cfs = lanes st.
Proof.
  unfold Uniform. cbn [decode].
  pose proof (fun ss fs => @pop_shape _ st ss fs prec) as Hpop.
  pose proof (decode_shape st prec) as Hshape.
  destruct (rans_decode st prec) as [cf decode_]. cbn [fst snd] in *.
  destruct (decode_ _ _) as [st1|e] eqn:Hst1; cbn [bind]; [|discriminate].
  intros E. inversion E; subst. split; [exact (Hpop _ _ _ Hst1)|].
  exists cf. split; [reflexivity|assumption].
Qed.

End CodecFacts.

(** ** The uniform codec on an exact engine *)

Section ExactUniform.
Context {R : Rans} {E : Exact R}.

Lemma Uniform_roundtrip (prec : Z) (st : ans_state) (symbol : operand) :
  fits prec (lanes st) symbol ->
  exists st',
    encode (Uniform prec) st symbol tt = Ok (st', tt) /\
    decode (Uniform prec) st' tt
    = Ok (st, Arr (broadcast (lanes st) symbol), tt) /\
    lanes st' = lanes st.
Proof.
  intros Hfit. pose proof (slices_ok_uniform Hfit) as Hok.
  destruct (decode_encode st Hok) as (st' & Henc & Hin & Hpop).
  pose proof (encode_shape _ _ _ _ Henc) as Hshape.
  exists st'. unfold Uniform. cbn [encode decode].
  rewrite Henc. cbn [bind].
  split; [reflexivity|]. split; [|assumption].
  destruct (rans_decode st' prec) as [cfs decode_] eqn:Hdec.
  cbn [fst snd] in Hin, Hpop. rewrite Hshape.
  rewrite (within_uniform (proj1 Hfit) Hin) in *.
  cbn [broadcast] in Hpop |- *. rewrite Hpop. reflexivity.
Qed.

(** Whatever [Uniform(prec)] decodes lies in [0, prec). *)
Lemma Uniform_decode_range (prec : Z) (st st' : ans_state) (cfs : list Z) :
  1 <= prec ->
  decode (Uniform prec) st tt = Ok (st', Arr cfs, tt) ->
  Forall (fun cf => 0 <= cf < prec) cfs /\ length cfs = lanes st.
Proof.
  intros Hprec. unfold Uniform. cbn [decode].
  pose proof (decode_range st Hprec) as Hrange.
  pose proof (decode_shape st prec) as Hshape.
  destruct (rans_decode st prec) as [cfs' decode_]. cbn [fst snd] in *.
  destruct (decode_ _ _) as [st1|e]; cbn [bind]; [|discriminate].
  intros Eq; inversion Eq; subst. auto.
Qed.

End ExactUniform.

(** ** The byte-array codec *)

Section ByteArrayFacts.
Context `{R : Rans}.

Lemma frombuffer_length (b : list Byte.byte) :
  length (frombuffer b) = length b.
Proof. apply length_map. Qed.

Lemma frombuffer_range (b : list Byte.byte) :
  Forall (fun x => 0 <= x < 256) (frombuffer b).
Proof.
  apply Forall_map, Forall_forall. intros x _.
  pose proof (Byte.to_N_bounded x). lia.
Qed.

Lemma tobytes_frombuffer (b : list Byte.byte) : tobytes (frombuffer b) = b.
Proof.
  unfold tobytes, frombuffer. rewrite map_map.
  rewrite <- (map_id b) at 2. apply map_ext. intros x.
  pose proof (Byte.to_N_bounded x).
  rewrite Z.mod_small by lia. rewrite N2Z.id, Byte.of_to_N. reflexivity.
Qed.

Lemma ByteArray_encode_eq (max_array_size : Z) (st : ans_state)
    (b : list Byte.byte) :
  encode (ByteArray max_array_size) st b tt =
  ('(st1, _) <-
     encode (substack (Uniform 256) (length b)) st (Arr (frombuffer b)) tt ;;
   '(st2, _) <-
     encode (substack (Uniform max_array_size) 1) st1
            (Num (Z.of_nat (length b))) tt ;;
   Ok (st2, tt)).
Proof. reflexivity. Qed.

Lemma ByteArray_decode_eq (max_array_size : Z) (st : ans_state) :
  decode (ByteArray max_array_size) st tt =
  ('(st1, size, _) <- decode (substack (Uniform max_array_size) 1) st tt ;;
   size_0 <- (entries size >>= first) ;;
   '(st2, bytes_ndarray, _) <-
     decode (substack (Uniform 256) (Z.to_nat size_0)) st1 tt ;;
   bytes_array <- (entries bytes_ndarray >>= fun a => Ok (tobytes a)) ;;
   Ok (st2, bytes_array, tt)).
Proof. reflexivity. Qed.

Lemma update_length (n : nat) (h subhead : head) :
  length subhead = length (firstn n h) ->
  length (subhead ++ skipn n h) = length h.
Proof.
  intros Hlen. rewrite length_app, Hlen, <- length_app.
  now rewrite firstn_skipn.
Qed.

(** The shapes around a [ByteArray(max_size).decode] that returns. *)
Lemma ByteArray_decode_shape (max_array_size : Z) (st st' : ans_state)
    (b : list Byte.byte) :
  decode (ByteArray max_array_size) st tt = Ok (st', b, tt) ->
  (1 <= lanes st)%nat /\ (length b <= lanes st)%nat /\
  lanes st' = lanes st.
Proof.
  rewrite ByteArray_decode_eq.
  destruct st as [h t]. rewrite substack_decode_eq.
  destruct (decode (Uniform max_array_size) (firstn 1 h, t) tt)
    as [[[[sh1 t1] size] []]|] eqn:Hsize; cbn [bind]; [|discriminate].
  destruct (Uniform_decode_shape _ _ Hsize) as (Hsh1 & cfs & -> & Hcfs).
  unfold lanes in Hsh1, Hcfs. cbn [fst] in Hsh1, Hcfs.
  cbn [entries bind].
  destruct cfs as [|size_0 cfs]; cbn [first bind]; [discriminate|].
  rewrite substack_decode_eq.
  destruct (decode (Uniform 256) _ tt)
    as [[[[sh2 t2] bytes_ndarray] []]|] eqn:Hbytes; cbn [bind];
    [|discriminate].
  destruct (Uniform_decode_shape _ _ Hbytes) as (Hsh2 & cfs' & -> & Hcfs').
  unfold lanes in Hsh2, Hcfs'. cbn [fst] in Hsh2, Hcfs'.
  cbn [entries bind].
  intros Eq; inversion Eq; subst.
  pose proof (update_length 1 h sh1 Hsh1) as Hh1.
  unfold lanes. cbn [fst].
  split; [|split].
  - rewrite length_firstn in Hcfs. cbn [length] in Hcfs. lia.
  - unfold tobytes. rewrite length_map, Hcfs', length_firstn. lia.
  - etransitivity; [exact (update_length _ _ sh2 Hsh2)|exact Hh1].
Qed.

End ByteArrayFacts.

Section ExactByteArray.
Context {R : Rans} {E : Exact R}.

(** [Uniform] under a view of the first [n] lanes. *)
Lemma substack_Uniform_roundtrip (prec : Z) (n : nat) (st : ans_state)
    (symbol : operand) :
  let k := length (firstn n (fst st)) in
  fits prec k symbol ->
  exists st',
    encode (substack (Uniform prec) n) st symbol tt = Ok (st', tt) /\
    decode (substack (Uniform prec) n) st' tt
    = Ok (st, Arr (broadcast k symbol), tt) /\
    lanes st' = lanes st.
Proof.
  destruct st as [h t]. simpl. intros Hfit.
  destruct (@Uniform_roundtrip _ _ prec (firstn n h, t) symbol Hfit)
    as (sub' & Henc & Hdec & Hshape).
  exists (fst sub' ++ skipn n h, snd sub').
  exact (@substack_roundtrip _ _ _ (Uniform prec) n h t symbol _ tt tt tt
           sub' Henc Hshape Hdec).
Qed.

End ExactByteArray.
(** ** The elementary codecs on an exact engine

    What [Uniform] and [ByteArray] do when the engine is exact and
    reads the precision as a total.  On the lane algorithm of section
    4.A, which reads it as a number of bits, they do otherwise (module
    [Section4AFacts]); which of the two [rans.py] is, the sources do
    not show. *)

Section ExactCodecs.
Context {R : Rans} {E : Exact R}.

(** On an exact engine [Uniform(prec)] brings back every number [x] of
    [0, prec), as the array that holds [x] on every lane. *)
Lemma Uniform_exact_roundtrip (prec x : Z) (st : ans_state) :
  0 <= x < prec ->
  exists st',
    encode (Uniform prec) st (Num x) tt = Ok (st', tt) /\
    decode (Uniform prec) st' tt = Ok (st, Arr (repeat x (lanes st)), tt).
Proof.
  intros Hx.
  assert (fits prec (lanes st) (Num x)) as Hfit.
  { split; simpl; [apply repeat_length|].
    apply Forall_forall. intros z Hz.
    now rewrite (repeat_spec _ _ _ Hz). }
  destruct (@Uniform_roundtrip _ _ prec st (Num x) Hfit)
    as (st' & Henc & Hdec & _).
  exists st'. auto.
Qed.

(** On an exact engine no state makes [Uniform(prec)] decode a symbol
    that is not below [prec]. *)
Lemma Uniform_exact_outside (prec x : Z) (st st' : ans_state)
    (symbol : operand) :
  1 <= prec -> prec <= x -> (1 <= lanes st')%nat ->
  decode (Uniform prec) st' tt = Ok (st, symbol, tt) ->
  symbol <> Arr (repeat x (lanes st')) /\ symbol <> Num x.
Proof.
  intros Hprec Hx Hlanes Hdec.
  destruct (Uniform_decode_shape _ _ Hdec) as (_ & cfs & -> & _).
  split; [|discriminate].
  destruct (@Uniform_decode_range _ _ prec st' st cfs Hprec Hdec)
    as (Hrange & Hlen).
  intros Eq. inversion Eq; subst cfs.
  destruct (lanes st'); [lia|]. simpl in Hrange.
  inversion Hrange; subst. lia.
Qed.

(** On an exact engine [ByteArray(max_size)] never decodes a byte
    string as long as [max_size]. *)
Lemma ByteArray_exact_length (max_array_size : Z) (st st' : ans_state)
    (b : list Byte.byte) :
  1 <= max_array_size ->
  decode (ByteArray max_array_size) st tt = Ok (st', b, tt) ->
  Z.of_nat (length b) < max_array_size.
Proof.
  intros Hmax. rewrite ByteArray_decode_eq.
  destruct st as [h t]. rewrite substack_decode_eq.
  destruct (decode (Uniform max_array_size) (firstn 1 h, t) tt)
    as [[[[sh1 t1] size] []]|] eqn:Hsize; cbn [bind]; [|discriminate].
  destruct size as [v|cfs]; cbn [entries bind]; [discriminate|].
  destruct (@Uniform_decode_range _ _ _ _ _ _ Hmax Hsize) as (Hrange & _).
  destruct cfs as [|size_0 cfs]; cbn [first bind]; [discriminate|].
  inversion Hrange as [|? ? Hcf _]; subst.
  rewrite substack_decode_eq.
  destruct (decode (Uniform 256) _ tt)
    as [[[[sh2 t2] bytes_ndarray] []]|] eqn:Hbytes; cbn [bind];
    [|discriminate].
  destruct bytes_ndarray as [v|cfs']; cbn [entries bind]; [discriminate|].
  destruct (@Uniform_decode_range _ _ 256 _ _ _ ltac:(lia) Hbytes)
    as (_ & Hlen).
  intros Eq; inversion Eq; subst.
  unfold tobytes. rewrite length_map, Hlen.
  unfold lanes. cbn [fst]. rewrite length_firstn. lia.
Qed.

(** On an exact engine [ByteArray(max_size)] brings back every byte
    string that is shorter than [max_size] and that the head has lanes
    for. *)
Lemma ByteArray_inverts (max_array_size : Z) (n : nat) (b : list Byte.byte) :
  Z.of_nat (length b) < max_array_size ->
  (length b <= n)%nat -> (1 <= n)%nat ->
  inverts n (ByteArray max_array_size) b.
Proof.
  intros Hlt Hfit Hlane st Hn. subst n.
  destruct (@substack_Uniform_roundtrip _ _ 256 (length b) st
              (Arr (frombuffer b))) as (st1 & Henc1 & Hdec1 & Hshape1).
  { split; simpl; [|apply frombuffer_range].
    rewrite frombuffer_length, length_firstn. unfold lanes in Hfit. lia. }
  destruct (@substack_Uniform_roundtrip _ _ max_array_size 1 st1
              (Num (Z.of_nat (length b)))) as (st2 & Henc2 & Hdec2 & Hshape2).
  { assert (length (firstn 1 (fst st1)) = 1%nat) as ->
      by (rewrite length_firstn; unfold lanes in *; lia).
    split; simpl; [reflexivity|]. repeat constructor; lia. }
  assert (length (firstn 1 (fst st1)) = 1%nat) as Hone
    by (rewrite length_firstn; unfold lanes in *; lia).
  rewrite Hone in Hdec2. cbn [broadcast repeat] in Hdec1, Hdec2.
  exists st2. split; [|split; [|congruence]].
  - rewrite ByteArray_encode_eq, Henc1. cbn [bind].
    rewrite Henc2. reflexivity.
  - rewrite ByteArray_decode_eq, Hdec2. cbn [bind entries first].
    rewrite Nat2Z.id, Hdec1. cbn [bind entries].
    now rewrite tobytes_frombuffer.
Qed.

End ExactCodecs.

(** ** The byte-array codec on any engine *)

Section ByteArrayClaim.
Context `{R : Rans}.


End ByteArrayClaim.


(** ** Sampling without replacement, and the bits-back loop *)

Section MultisetFacts.
Context `{R : Rans} {A : Type} `{Symbol A}.

Lemma Multiset_decode_loop_snoc (symbol_codec : Codec A unit) (rounds : nat)
    (st : ans_state) (N : multiset A) :
  Multiset_decode_loop symbol_codec (S rounds) st N =
  ('(st', N') <- Multiset_decode_loop symbol_codec rounds st N ;;
   Multiset_decode_loop symbol_codec 1 st' N').
Proof.
  revert st N. induction rounds as [|rounds IH]; intros st N.
  - simpl. destruct (decode symbol_codec st tt) as [[[st1 x] []]|];
      reflexivity.
  - change (Multiset_decode_loop symbol_codec (S (S rounds)) st N)
      with ('(st1, symbol, _) <- decode symbol_codec st tt ;;
            '(st2, N') <-
              encode SamplingWithoutReplacement st1 symbol N ;;
            Multiset_decode_loop symbol_codec (S rounds) st2 N').
    change (Multiset_decode_loop symbol_codec (S rounds) st N)
      with ('(st1, symbol, _) <- decode symbol_codec st tt ;;
            '(st2, N') <-
              encode SamplingWithoutReplacement st1 symbol N ;;
            Multiset_decode_loop symbol_codec rounds st2 N').
    destruct (decode symbol_codec st tt) as [[[st1 x] []]|]; [|reflexivity].
    cbn [bind].
    destruct (encode SamplingWithoutReplacement st1 x N) as [[st2 N']|];
      [|reflexivity].
    cbn [bind]. apply IH.
Qed.

(** One round of sampling on a state of at most one lane, when it
    returns: the state had a lane, the symbol has a copy in the
    multiset, and encoding that symbol into any tree with the contents
    that are left restores the state. *)
Lemma sampling_undone (s s1 : ans_state) (M M1 : multiset A) (x : A) :
  encode_undoes_pop ->
  (lanes s <= 1)%nat -> well_formed M ->
  SamplingWithoutReplacement_decode s M = Ok (s1, x, M1) ->
  lanes s = 1%nat /\ lanes s1 = 1%nat /\
  In x (to_sequence M) /\ remove M x = Ok M1 /\
  forall N, well_formed N -> to_sequence N = to_sequence M1 ->
    SamplingWithoutReplacement_encode s1 x N = Ok (s, insert N x).
Proof.
  intros Hengine Hlane Hwf. pose proof Hwf as (Hb & Hc & Hp).
  unfold SamplingWithoutReplacement_decode.
  destruct M as [|size y l r]; [discriminate|].
  cbn [item0 bind].
  set (M := Node size y l r) in *.
  pose proof (decode_shape s size) as Hshape.
  pose proof (fun starts freqs => @pop_shape _ s starts freqs size) as Hpop.
  pose proof (fun st1 start freq => Hengine s st1 size start freq) as Hinv.
  destruct (rans_decode s size) as [cdf_value decode_] eqn:Hdec.
  cbn [fst snd] in Hshape, Hpop, Hinv.
  destruct cdf_value as [|cf0 rest]; [discriminate|].
  assert (lanes s = 1%nat /\ rest = []) as (Hone & ->).
  { simpl in Hshape. destruct rest; simpl in Hshape; [split; [lia|reflexivity]|lia]. }
  cbn [first bind].
  destruct (reverse_lookup_then_remove M cf0)
    as [[[M1' [start freq]] x']|e] eqn:Hfused; cbn [bind]; [|discriminate].
  rewrite Hone. cbn [broadcast repeat].
  destruct (decode_ [start] [freq]) as [s1'|e] eqn:Hs1; cbn [bind];
    [|discriminate].
  intros Eq. inversion Eq; subst s1' x' M1'. clear Eq.
  pose proof (reverse_lookup_then_remove_in_range _ Hwf Hfused) as Hcf.
  change (size0 M) with size in Hcf.
  destruct (reverse_lookup_total _ Hc Hp Hcf)
    as (start' & freq' & x' & Hrev & Hin & Hstart & Hend).
  destruct (reverse_lookup_then_remove_fused _ _ Hb Hrev)
    as (M1' & Hrem & Hfused').
  rewrite Hfused in Hfused'. inversion Hfused'; subst M1' start' freq' x'.
  clear Hfused'.
  pose proof (Hpop _ _ _ Hs1) as Hlane1. rewrite Hone in Hlane1.
  split; [reflexivity|]. split; [assumption|].
  split; [exact (reverse_lookup_present Hwf Hcf Hrev)|].
  split; [assumption|].
  intros N HN Hcontents.
  destruct (slice_recomputed Hwf Hcf Hrev Hrem HN Hcontents)
    as (Hslice & Hsize).
  unfold SamplingWithoutReplacement_encode. rewrite Hslice.
  rewrite (item0_positive (insert_not_empty N x)). cbn [bind].
  rewrite Hlane1. cbn [broadcast repeat]. rewrite Hsize.
  change (size0 M) with size.
  rewrite (Hinv s1 start freq); [reflexivity|assumption| | |assumption].
  - unfold slice_ok. change (size0 M) with size in Hend. lia.
  - constructor; [|constructor]. simpl. lia.
Qed.

(** The same round under the view [head[:1]] of a wider head. *)
Lemma sampling_undone_substack (st st1 : ans_state) (M M1 : multiset A)
    (x : A) :
  encode_undoes_pop -> well_formed M ->
  decode SamplingWithoutReplacement st M = Ok (st1, x, M1) ->
  lanes st1 = lanes st /\
  In x (to_sequence M) /\ remove M x = Ok M1 /\
  forall N, well_formed N -> to_sequence N = to_sequence M1 ->
    encode SamplingWithoutReplacement st1 x N = Ok (st, insert N x).
Proof.
  intros Hengine Hwf. destruct st as [h t].
  unfold SamplingWithoutReplacement. rewrite substack_decode_eq.
  cbn [decode].
  destruct (SamplingWithoutReplacement_decode (firstn 1 h, t) M)
    as [[[[sh1 t1] x'] M1']|e] eqn:Hdec; cbn [bind]; [|discriminate].
  intros Eq.
  assert (st1 = (sh1 ++ skipn 1 h, t1)) as -> by congruence.
  assert (x' = x) as -> by congruence.
  assert (M1' = M1) as -> by congruence.
  clear Eq.
  destruct (@sampling_undone (firstn 1 h, t) (sh1, t1) M M1 x Hengine)
    as (Hone & Hlane1 & Hin & Hrem & Henc); [|assumption|exact Hdec|].
  { unfold lanes. cbn [fst]. rewrite length_firstn. lia. }
  unfold lanes in Hone, Hlane1. cbn [fst] in Hone, Hlane1.
  assert (length sh1 = length (firstn 1 h)) as Hsame by congruence.
  split.
  { unfold lanes. cbn [fst]. rewrite length_app, Hsame, <- length_app.
    now rewrite firstn_skipn. }
  split; [assumption|]. split; [assumption|].
  intros N HN Hcontents.
  rewrite substack_encode_eq. cbn [encode].
  rewrite (firstn_update 1 h sh1 Hsame), (Henc N HN Hcontents).
  cbn [bind].
  rewrite (skipn_update 1 h sh1 Hsame), firstn_skipn. reflexivity.
Qed.

(** The loop of [decode] walks the rounds of a loop of [encode] that
    has returned back, one by one. *)
Lemma Multiset_undone (symbol_codec : Codec A unit) (n fuel : nat) :
  encode_undoes_pop ->
  forall (M : multiset A) (st st' : ans_state),
    well_formed M ->
    (forall x, In x (to_sequence M) -> undoes n symbol_codec x) ->
    lanes st = n ->
    Multiset_encode symbol_codec fuel st M = Some (Ok st') ->
    exists N,
      Multiset_decode_loop symbol_codec (Z.to_nat (size0 M)) st' Empty
      = Ok (st, N) /\
      well_formed N /\ to_sequence N = to_sequence M.
Proof.
  intros Hengine.
  induction fuel as [|fuel IH]; intros M st st' Hwf Hsym Hlane Hrun.
  - destruct M as [|size y l r]; [|discriminate].
    simpl in Hrun. inversion Hrun; subst.
    exists Empty. repeat split.
  - destruct M as [|size y l r].
    { simpl in Hrun. inversion Hrun; subst. exists Empty. repeat split. }
    set (M := Node size y l r) in *.
    cbn [Multiset_encode] in Hrun.
    destruct (decode SamplingWithoutReplacement st M)
      as [[[st1 x] M1]|e] eqn:Hdec; [|discriminate].
    destruct (encode symbol_codec st1 x tt) as [[st2 []]|e] eqn:Hcenc;
      [|discriminate].
    destruct (@sampling_undone_substack st st1 M M1 x Hengine Hwf Hdec)
      as (Hlane1 & Hin & Hrem & Henc).
    destruct (Hsym x Hin st1 st2) as (Hcdec & Hlane2);
      [congruence|assumption|].
    pose proof (well_formed_remove _ Hwf Hin Hrem) as Hwf1.
    pose proof (to_sequence_remove _ Hwf Hin Hrem) as Hseq.
    pose proof (size0_remove _ _ (proj2 (proj2 Hwf)) Hrem) as Hsize1.
    destruct (IH M1 st2 st') as (N & Hloop & HN & HNseq);
      [assumption| |assumption|assumption|].
    { intros z Hz. apply Hsym. rewrite Hseq.
      apply (Permutation_in _ (Permutation_sym (insort_perm x _))).
      right. assumption. }
    pose proof (positive_size0 _ (proj2 (proj2 Hwf1))) as Hpos1.
    replace (Z.to_nat (size0 M)) with (S (Z.to_nat (size0 M1))) by lia.
    exists (insert N x).
    split; [|split; [apply well_formed_insert; assumption|]].
    + rewrite Multiset_decode_loop_snoc, Hloop. cbn [bind].
      cbn [Multiset_decode_loop]. rewrite Hcdec. cbn [bind].
      rewrite (Henc N HN HNseq). reflexivity.
    + destruct HN as (HNb & HNc & _).
      rewrite (to_sequence_insert _ x HNb HNc), HNseq. congruence.
Qed.

End MultisetFacts.

(** ** Byte strings are symbols *)

Lemma byte_to_N_inj (x y : Byte.byte) : Byte.to_N x = Byte.to_N y -> x = y.
Proof.
  intros E. pose proof (Byte.of_to_N x) as Hx.
  rewrite E, Byte.of_to_N in Hx. now inversion Hx.
Qed.

Lemma bytes_lt_irrefl (a : list Byte.byte) : bytes_lt a a = false.
Proof.
  induction a as [|x a IH]; simpl; [reflexivity|].
  now rewrite N.ltb_irrefl, N.eqb_refl, IH.
Qed.

Lemma bytes_lt_trans (a b c : list Byte.byte) :
  bytes_lt a b = true -> bytes_lt b c = true -> bytes_lt a c = true.
Proof.
  revert b c. induction a as [|x a IH]; intros [|y b] [|z c]; simpl;
    try discriminate; auto.
  intros Hab Hbc.
  apply orb_true_iff in Hab, Hbc. apply orb_true_iff.
  destruct Hab as [Hxy | Hab], Hbc as [Hyz | Hbc].
  - left. apply N.ltb_lt. apply N.ltb_lt in Hxy, Hyz. lia.
  - apply andb_true_iff in Hbc as (Hyz & _).
    left. apply N.ltb_lt. apply N.ltb_lt in Hxy. apply N.eqb_eq in Hyz. lia.
  - apply andb_true_iff in Hab as (Hxy & _).
    left. apply N.ltb_lt. apply N.ltb_lt in Hyz. apply N.eqb_eq in Hxy. lia.
  - apply andb_true_iff in Hab as (Hxy & Hab).
    apply andb_true_iff in Hbc as (Hyz & Hbc).
    right. apply andb_true_iff. split.
    + apply N.eqb_eq. apply N.eqb_eq in Hxy, Hyz. lia.
    + exact (IH _ _ Hab Hbc).
Qed.

Lemma bytes_lt_total (a b : list Byte.byte) :
  bytes_lt a b = false -> bytes_lt b a = false -> a = b.
Proof.
  revert b. induction a as [|x a IH]; intros [|y b]; simpl;
    try discriminate; auto.
  intros Hab Hba.
  apply orb_false_iff in Hab as (Hxy & Hab), Hba as (Hyx & Hba).
  apply N.ltb_ge in Hxy, Hyx.
  assert (Byte.to_N x = Byte.to_N y) as E by lia.
  rewrite E, N.eqb_refl in Hab, Hba. simpl in Hab, Hba.
  f_equal; [exact (byte_to_N_inj _ _ E)|exact (IH _ Hab Hba)].
Qed.

#[export] Instance Symbol_bytes : Symbol (list Byte.byte) :=
  {| lt := bytes_lt;
     lt_irrefl := bytes_lt_irrefl;
     lt_trans := bytes_lt_trans;
     lt_total := bytes_lt_total |}.
(** ** The codecs on the engine of the examples *)

(** Read as a total, the precision 3 has no room for 5: on the engine
    of the examples [Uniform(3)] encodes 5, the decoder finds the index
    2, and leaves a state that is not the one the encoder started
    from. *)
Lemma total_reading_loses_5_at_3 :
  encode (@Uniform Ideal 3) (base_message 1) (Num 5) tt
  = Ok (([12884901893], []), tt) /\
  decode (@Uniform Ideal 3) ([12884901893], []) tt
  = Ok (([4294967297], []), Arr [2], tt).
Proof. split; reflexivity. Qed.

(** Read as a total, [max_size] itself is no length: on the engine of
    the examples a byte string of length [max_size = 1] is encoded, but
    the decoder reads the length 0 and returns the empty byte string,
    with a state other than the initial one. *)
Lemma total_reading_loses_full_size :
  encode (@ByteArray Ideal 1) (base_message 1) [Byte.x00] tt
  = Ok (([1099511627777], []), tt) /\
  decode (@ByteArray Ideal 1) ([1099511627777], []) tt
  = Ok (([1099511627777], []), [], tt).
Proof. split; reflexivity. Qed.

Lemma images_inverted (x : list Byte.byte) :
  In x (to_sequence (build_multiset Tests.images)) ->
  inverts 3 (@ByteArray Ideal 4) x.
Proof.
  intros Hin. vm_compute in Hin.
  destruct Hin as [<- | [<- | [<- | [<- | []]]]];
    apply ByteArray_inverts; simpl; lia.
Qed.

(** The bits-back loop on the engine of the examples: the multiset of
    the four byte strings goes onto three lanes and comes back. *)
Lemma Multiset_example :
  Multiset_encode (@ByteArray Ideal 4) 4 (base_message 3)
                  (build_multiset Tests.images)
  = Some (Ok ([1537228672624518474; 281474976729417; 4294967296], [])) /\
  Multiset_decode (@ByteArray Ideal 4)
    ([1537228672624518474; 281474976729417; 4294967296], []) 4
  = Ok (base_message 3, build_multiset Tests.images).
Proof. split; reflexivity. Qed.




(** ** Section 4.A, read literally, is not the engine of the tests

    The steps of section 4.A as worded break the invariant that the
    section states for them, lose data over two encodes, and do not end
    at the precision that [test_rans.py] uses, nor at the precision 256
    that [ByteArray] passes for a byte.  They read the precision as a
    number of bits, where the docstrings of [codecs.py] read it as a
    total; what a codec does with a symbol between the two depends on
    the reading. *)

Module Section4AFacts.
Import Section4A.

(** One encode from the base lane leaves the lane below [RANS_L]. *)
Lemma encode_leaves_rest :
  encode 3 (RANS_L, []) 5 1 8 = Some (261, [0]) /\ 261 < RANS_L.
Proof. split; reflexivity. Qed.

(** A single encode is undone by decode and pop. *)
Lemma single_encode_undone :
  decode (261, [0]) 8 = 5 /\
  pop (261, [0]) 8 5 1 = Some (RANS_L, []).
Proof. split; reflexivity. Qed.

(** Two encodes are not: the second renormalisation pushes the whole
    lane, and the pull that answers it takes the word of the first. *)
Lemma two_encodes_lost :
  encode 3 (261, [0]) 0 1 8 = Some (0, [261; 0]) /\
  pop (0, [261; 0]) 8 0 1 = Some (261 * 2 ^ 32, []) /\
  decode (261 * 2 ^ 32, []) 8 = 0 /\
  pop (261 * 2 ^ 32, []) 8 5 1 = Some (4378853371, []).
Proof. repeat split; reflexivity. Qed.

(** At the precision 1337 of [test_rans.py] the bound [max_h] wraps to
    0 and the loop of [encode] never ends. *)
Lemma precision_1337_bound (freq : Z) :
  u64 (Z.shiftl (RANS_L / RANS_BASE) 1337 * freq) = 0.
Proof.
  unfold u64, RANS_H. rewrite Z.shiftl_mul_pow2 by lia.
  replace (RANS_L / RANS_BASE * 2 ^ 1337 * freq)
    with ((2 ^ 1273 * freq) * 2 ^ 64).
  - apply Z_mod_mult.
  - change (RANS_L / RANS_BASE) with 1.
    replace (2 ^ 1337) with (2 ^ 1273 * 2 ^ 64)
      by (rewrite <- Z.pow_add_r by lia; reflexivity).
    ring.
Qed.

Lemma encode_renorm_zero_bound (fuel : nat) (h : Z) (tail : list Z) :
  0 <= h -> encode_renorm fuel h tail 0 = None.
Proof.
  revert h tail. induction fuel as [|fuel IH]; intros h tail Hh; simpl;
    [reflexivity|].
  replace (h >=? 0) with true by (symmetry; apply Z.geb_le; lia).
  apply IH. apply Z.shiftr_nonneg. assumption.
Qed.

Lemma precision_1337_diverges (fuel : nat) (h : Z) (tail : list Z)
    (start freq : Z) :
  0 <= h -> encode fuel (h, tail) start freq 1337 = None.
Proof.
  intros Hh. unfold encode. rewrite precision_1337_bound.
  now rewrite encode_renorm_zero_bound.
Qed.

(** So it is at every precision from 64 on, the 256 of the byte step
    of [ByteArray] among them. *)
Lemma precision_from_64_bound (p freq : Z) :
  64 <= p -> u64 (Z.shiftl (RANS_L / RANS_BASE) p * freq) = 0.
Proof.
  intros Hp. unfold u64, RANS_H. rewrite Z.shiftl_mul_pow2 by lia.
  change (RANS_L / RANS_BASE) with 1.
  replace (1 * 2 ^ p * freq) with ((2 ^ (p - 64) * freq) * 2 ^ 64).
  - apply Z_mod_mult.
  - replace (2 ^ p) with (2 ^ (p - 64) * 2 ^ 64)
      by (rewrite <- Z.pow_add_r by lia; f_equal; lia).
    ring.
Qed.

Lemma precision_from_64_diverges (fuel : nat) (h : Z) (tail : list Z)
    (start freq p : Z) :
  64 <= p -> 0 <= h -> encode fuel (h, tail) start freq p = None.
Proof.
  intros Hp Hh. unfold encode. rewrite (precision_from_64_bound _ Hp).
  now rewrite encode_renorm_zero_bound.
Qed.

(** Read as a number of bits, the precision 3 has room for 5: the
    slice [(5, 1)] goes onto the base lane and comes back. *)
Lemma bits_reading_keeps_5_at_3 :
  encode 3 (RANS_L, []) 5 1 3 = Some (13, [0]) /\
  decode (13, [0]) 3 = 5 /\
  pop (13, [0]) 3 5 1 = Some (RANS_L, []).
Proof. repeat split; reflexivity. Qed.

(** And the precision 1 has room for the length 1. *)
Lemma bits_reading_keeps_1_at_1 :
  encode 3 (RANS_L, []) 1 1 1 = Some (3, [0]) /\
  decode (3, [0]) 1 = 1 /\
  pop (3, [0]) 1 1 1 = Some (RANS_L, []).
Proof. repeat split; reflexivity. Qed.

(** The first step of the bits-back loop is a [pop].  From the base
    lane, for the slice [(0, 1)] of a multiset of two, it leaves
    [2^30] and finds no word to pull. *)
Lemma pop_from_base_underflows :
  decode (RANS_L, []) 2 = 0 /\ pop (RANS_L, []) 2 0 1 = None.
Proof. split; reflexivity. Qed.

(** With a word to pull the [pop] returns, but the [encode] that
    should undo it pushes the lane away. *)
Lemma pop_not_undone :
  pop (RANS_L, [7]) 2 0 1 = Some (2 ^ 62 + 7, []) /\
  encode 3 (2 ^ 62 + 7, []) 0 1 2 = Some (0, [2 ^ 30; 7]).
Proof. split; reflexivity. Qed.

End Section4AFacts.

(** * Further properties of the search tree *)

Section MsbstExtra.
Context {A : Type} `{Symbol A}.

Lemma StronglySorted_app (xs ys : list A) :
  StronglySorted le xs -> StronglySorted le ys ->
  (forall a b, In a xs -> In b ys -> le a b) ->
  StronglySorted le (xs ++ ys).
Proof.
  intros Hxs Hys Hcross. induction Hxs as [|a xs Hxs IH Ha]; simpl;
    [assumption|].
  constructor.
  - apply IH. intros u v Hu Hv. apply Hcross; [right|]; assumption.
  - apply Forall_app. split; [assumption|].
    apply Forall_forall. intros v Hv. apply Hcross; [left; reflexivity|].
    assumption.
Qed.

Lemma StronglySorted_repeat (y : A) (k : nat) :
  StronglySorted le (repeat y k).
Proof.
  induction k as [|k IH]; simpl; constructor; [assumption|].
  apply Forall_forall. intros z Hz. rewrite (repeat_spec _ _ _ Hz).
  apply lt_irrefl.
Qed.

(** X1: the enumeration of a tree in search order is ascending,
    whatever its sizes are. *)
Theorem to_sequence_ascending (m : multiset A) :
  bst m -> StronglySorted le (to_sequence m).
Proof.
  induction m as [|size y l IHl r IHr]; simpl; [constructor|].
  intros (Al & Ar & Bl & Br).
  apply StronglySorted_app; [auto| |].
  - apply StronglySorted_app; [apply StronglySorted_repeat|auto|].
    intros a b Ha Hb. rewrite (repeat_spec _ _ _ Ha).
    apply lt_asym. exact (all_nodes_to_sequence _ _ _ Ar Hb).
  - intros a b Ha Hb. unfold le.
    pose proof (all_nodes_to_sequence _ _ _ Al Ha) as Hay. simpl in Hay.
    apply in_app_iff in Hb as [Hb | Hb].
    + rewrite (repeat_spec _ _ _ Hb). exact (lt_asym _ _ Hay).
    + apply lt_asym. apply (lt_trans _ _ _ Hay).
      exact (all_nodes_to_sequence _ _ _ Ar Hb).
Qed.

(** X2: the size at the root is the number of elements that
    [to_sequence] lists. *)
Theorem size_counts_elements (m : multiset A) :
  well_formed m -> size0 m = Z.of_nat (length (to_sequence m)).
Proof.
  intros (_ & Hc & Hp). symmetry. apply length_to_sequence; assumption.
Qed.

Lemma reverse_lookup_index (m : multiset A) (idx : Z) (d : A) :
  well_formed m -> 0 <= idx < size0 m ->
  exists start freq,
    reverse_lookup m idx
    = Ok ((start, freq), nth (Z.to_nat idx) (to_sequence m) d) /\
    start <= idx < start + freq.
Proof.
  intros (_ & Hc & Hp). revert idx Hc Hp.
  induction m as [|size y l IHl r IHr]; simpl; [lia|].
  unfold multiplicity_at. intros idx (Hm & Cl & Cr) (Hs & Pl & Pr) Hidx.
  pose proof (positive_size0 _ Pl). pose proof (positive_size0 _ Pr).
  pose proof (length_to_sequence _ Cl Pl) as Ll.
  replace ((0 <=? idx) && (idx <? size)) with true
    by (symmetry; apply andb_true_intro; split;
        [apply Z.leb_le|apply Z.ltb_lt]; lia).
  simpl. destruct (idx <? size0 l) eqn:Hleft.
  - apply Z.ltb_lt in Hleft.
    destruct (IHl idx Cl Pl) as (s & f & E & Hin); [lia|].
    exists s, f. rewrite app_nth1 by lia. auto.
  - apply Z.ltb_ge in Hleft.
    rewrite app_nth2 by lia.
    destruct (idx >=? _) eqn:Hright.
    + apply Z.geb_le in Hright.
      assert (r <> Empty) as Hne by (destruct r; simpl in *; [lia|discriminate]).
      rewrite (item0_positive Hne). simpl.
      destruct (IHr (idx - (size - size0 r)) Cr Pr) as (s & f & E & Hin);
        [lia|].
      rewrite E. simpl.
      rewrite app_nth2 by (rewrite repeat_length; lia).
      rewrite repeat_length.
      replace (Z.to_nat idx - length (to_sequence l)
               - Z.to_nat (size - size0 l - size0 r))%nat
        with (Z.to_nat (idx - (size - size0 r))) by lia.
      do 2 eexists. split; [reflexivity|]. lia.
    + rewrite Z.geb_leb in Hright. apply Z.leb_gt in Hright.
      rewrite app_nth1 by (rewrite repeat_length; lia).
      match goal with |- context [nth ?n (repeat y ?k) d] =>
        assert (nth n (repeat y k) d = y) as ->
          by (apply (repeat_spec k y), nth_In; rewrite repeat_length; lia)
      end.
      do 2 eexists. split; [reflexivity|]. lia.
Qed.

(** X3: on a well-formed tree [reverse_lookup] is indexing into the
    ascending enumeration: a valid index finds the element at that
    position, with a slice that holds the index. *)
Theorem reverse_lookup_nth (m : multiset A) (idx : Z) (d : A) :
  well_formed m -> 0 <= idx < size0 m ->
  exists start freq,
    reverse_lookup m idx
    = Ok ((start, freq), nth (Z.to_nat idx) (to_sequence m) d) /\
    start <= idx < start + freq.
Proof.
  exact (@reverse_lookup_index m idx d).
Qed.

(** X4: on a well-formed tree [reverse_lookup] fails exactly for the
    indices outside [0, size), and then by its assertion. *)
Theorem reverse_lookup_assertion (m : multiset A) (idx : Z) :
  well_formed m ->
  (reverse_lookup m idx = Raise AssertionError <-> ~ 0 <= idx < size0 m) /\
  (forall e, reverse_lookup m idx = Raise e -> e = AssertionError).
Proof.
  intros (_ & Hc & Hp).
  assert (forall e, reverse_lookup m idx = Raise e ->
                    e = AssertionError /\ ~ 0 <= idx < size0 m) as Hraise.
  { intros e He.
    assert (~ 0 <= idx < size0 m) as Hout.
    { intros Hidx.
      destruct (reverse_lookup_total _ Hc Hp Hidx) as (s & f & x & E & _).
      congruence. }
    split; [|assumption].
    destruct m as [|size y l r]; simpl in *; [congruence|].
    replace ((0 <=? idx) && (idx <? size)) with false in He
      by (symmetry; apply andb_false_iff;
          rewrite Z.leb_gt, Z.ltb_ge; lia).
    simpl in He. congruence. }
  split; [split|].
  - intros He. exact (proj2 (Hraise _ He)).
  - intros Hout. destruct m as [|size y l r]; simpl in *; [reflexivity|].
    replace ((0 <=? idx) && (idx <? size)) with false
      by (symmetry; apply andb_false_iff;
          rewrite Z.leb_gt, Z.ltb_ge; lia).
    reflexivity.
  - intros e He. exact (proj1 (Hraise _ He)).
Qed.

(** X5: [reverse_lookup_then_remove] has no assertion, yet on a
    well-formed tree an index out of range never yields a result: a
    negative index ends in the unpacking of [()], an index at or above
    the size in [right[0]] on [()]. *)
Theorem reverse_lookup_then_remove_out_of_range (m : multiset A) (idx : Z) :
  well_formed m ->
  (idx < 0 -> reverse_lookup_then_remove m idx = Raise ValueError) /\
  (size0 m <= idx -> m <> Empty ->
   reverse_lookup_then_remove m idx = Raise IndexError).
Proof.
  exact (@reverse_lookup_then_remove_outside _ _ m idx).
Qed.

End MsbstExtra.

Section MsbstExtraRemoval.
Context {A : Type} `{Symbol A}.

Lemma remove_present_succeeds (m : multiset A) (x : A) :
  bst m -> In x (to_sequence m) -> exists m', remove m x = Ok m'.
Proof.
  induction m as [|size y l IHl r IHr]; [intros _ []|].
  intros Hb Hin.
  destruct (@present_cases _ _ _ _ _ _ _ Hb Hin)
    as [(Hlt & Hx) | [(Hgt & Hx) | (Heq & _)]];
    simpl in Hb |- *; destruct Hb as (_ & _ & Bl & Br);
    (destruct (size =? 1); [eauto|]).
  - rewrite Hlt. destruct (IHl Bl Hx) as (l' & ->). simpl. eauto.
  - unfold gt in *. rewrite (lt_asym _ _ Hgt), Hgt.
    destruct (IHr Br Hx) as (r' & ->). simpl. eauto.
  - subst y. unfold gt. rewrite lt_irrefl. eauto.
Qed.

(** X6: [remove] of a symbol that has a copy in a well-formed tree
    succeeds and takes exactly one copy of it: the size drops by one,
    the tree stays well formed, and the old enumeration is the new one
    with the symbol put back in its place. *)
Theorem remove_present (m : multiset A) (x : A) :
  well_formed m -> In x (to_sequence m) ->
  exists m',
    remove m x = Ok m' /\
    well_formed m' /\
    size0 m' = size0 m - 1 /\
    to_sequence m = insort x (to_sequence m').
Proof.
  intros Hwf Hin. pose proof Hwf as (Hb & _ & Hp).
  destruct (remove_present_succeeds _ _ Hb Hin) as (m' & Hrem).
  exists m'. split; [assumption|].
  split; [exact (well_formed_remove _ Hwf Hin Hrem)|].
  split; [exact (size0_remove _ _ Hp Hrem)|].
  exact (to_sequence_remove _ Hwf Hin Hrem).
Qed.

(** X7: [reverse_lookup_then_remove] at a valid index of a well-formed
    tree takes the element at that position of the ascending
    enumeration and nothing else. *)
Theorem reverse_lookup_then_remove_nth (m : multiset A) (idx : Z) (d : A) :
  well_formed m -> 0 <= idx < size0 m ->
  exists m' sl,
    let x := nth (Z.to_nat idx) (to_sequence m) d in
    reverse_lookup_then_remove m idx = Ok (m', sl, x) /\
    well_formed m' /\
    size0 m' = size0 m - 1 /\
    to_sequence m = insort x (to_sequence m').
Proof.
  intros Hwf Hidx. pose proof Hwf as (Hb & Hc & Hp).
  destruct (reverse_lookup_index d Hwf Hidx) as (start & freq & Hrev & _).
  destruct (reverse_lookup_then_remove_fused _ _ Hb Hrev)
    as (m' & Hrem & Hfused).
  pose proof (reverse_lookup_present Hwf Hidx Hrev) as Hin.
  exists m', (start, freq). cbv zeta.
  split; [assumption|].
  split; [exact (well_formed_remove _ Hwf Hin Hrem)|].
  split; [exact (size0_remove _ _ Hp Hrem)|].
  exact (to_sequence_remove _ Hwf Hin Hrem).
Qed.

Lemma valid_children_empty (size : Z) (y : A) (l r : multiset A) :
  valid (Node size y l r) -> size = 1 -> l = Empty /\ r = Empty.
Proof.
  intros Hv Hone. destruct (valid_well_formed Hv) as (_ & Hc & Hp).
  destruct Hv as (_ & Hc1). simpl in Hc1, Hp. unfold multiplicity_at in Hc1.
  destruct Hc1 as (Hm & _), Hp as (_ & Pl & Pr).
  pose proof (positive_size0 _ Pl). pose proof (positive_size0 _ Pr).
  split; [destruct l as [|ls ? ? ?]|destruct r as [|rs ? ? ?]];
    try reflexivity; simpl in *; lia.
Qed.

(** X8: on a valid tree [insert] undoes [remove] of a stored symbol,
    up to the very tuples. *)
Theorem insert_remove (m : multiset A) (x : A) :
  valid m -> stored x m ->
  exists m', remove m x = Ok m' /\ insert m' x = m.
Proof.
  induction m as [|size y l IHl r IHr]; [intros _ []|].
  intros Hv Hst.
  pose proof Hv as ((Al & Ar & Bl & Br) & (Hm & Cl & Cr)).
  assert (valid l) as Vl by (split; assumption).
  assert (valid r) as Vr by (split; assumption).
  simpl. destruct (size =? 1) eqn:Hone.
  - apply Z.eqb_eq in Hone.
    destruct (valid_children_empty Hv Hone) as (-> & ->).
    simpl in Hst. destruct Hst as [-> | [[] | []]].
    exists Empty. split; [reflexivity|]. subst size. reflexivity.
  - apply Z.eqb_neq in Hone.
    destruct (compare_cases x y)
      as [(Hlt & Hgt) | [(Hlt & Hgt) | (Hlt & Hgt & Heq)]];
      rewrite Hlt, ?Hgt.
    + assert (stored x l) as Hl.
      { simpl in Hst. destruct Hst as [-> | [Hl | Hr]]; [|assumption|].
        - rewrite lt_irrefl in Hlt. discriminate.
        - pose proof (all_nodes_stored _ _ _ Ar Hr) as Hyx. simpl in Hyx.
          rewrite (lt_asym _ _ Hyx) in Hlt. discriminate. }
      destruct (IHl Vl Hl) as (l' & -> & Hins). simpl.
      eexists. split; [reflexivity|]. simpl. rewrite Hlt, Hins.
      f_equal. lia.
    + assert (stored x r) as Hr.
      { simpl in Hst. destruct Hst as [-> | [Hl | Hr]]; [| |assumption].
        - rewrite gt_irrefl in Hgt. discriminate.
        - pose proof (all_nodes_stored _ _ _ Al Hl) as Hxy. simpl in Hxy.
          rewrite Hxy in Hlt. discriminate. }
      destruct (IHr Vr Hr) as (r' & -> & Hins). simpl.
      eexists. split; [reflexivity|]. simpl. rewrite Hlt, Hgt, Hins.
      f_equal. lia.
    + eexists. split; [reflexivity|]. simpl. rewrite Hlt, Hgt.
      f_equal. lia.
Qed.

End MsbstExtraRemoval.

Section MsbstExtraCounts.
Context {A : Type} `{Symbol A}.

Lemma count_perm (f : A -> bool) (xs ys : list A) :
  Permutation xs ys -> count f xs = count f ys.
Proof.
  intros Hp. unfold count. f_equal.
  induction Hp as [|x xs ys _ IH|x y xs|xs ys zs _ IH1 _ IH2]; simpl.
  - reflexivity.
  - destruct (f x); simpl; congruence.
  - destruct (f x), (f y); reflexivity.
  - congruence.
Qed.

Lemma count_cons (f : A -> bool) (x : A) (xs : list A) :
  count f (x :: xs) = (if f x then 1 else 0) + count f xs.
Proof.
  unfold count. simpl filter. destruct (f x); [|reflexivity].
  cbn [length]. rewrite Nat2Z.inj_succ. lia.
Qed.

Lemma count_nonneg (f : A -> bool) (xs : list A) : 0 <= count f xs.
Proof. unfold count. lia. Qed.

Lemma symbol_eq_eq (x y : A) : symbol_eq x y = true <-> x = y.
Proof.
  unfold symbol_eq. rewrite andb_true_iff, !negb_true_iff. split.
  - intros (Hxy & Hyx). exact (lt_total _ _ Hxy Hyx).
  - intros ->. split; apply lt_irrefl.
Qed.

Lemma stored_present (m : multiset A) (x : A) :
  size_consistent 1 m -> stored x m -> In x (to_sequence m).
Proof.
  induction m as [|size y l IHl r IHr]; simpl; [tauto|].
  unfold multiplicity_at. intros (Hm & Cl & Cr).
  rewrite !in_app_iff. intros [-> | [Hl | Hr]]; auto.
  right. left.
  destruct (Z.to_nat (size - size0 l - size0 r)) eqn:Hk; [lia|].
  left. reflexivity.
Qed.

Lemma size0_build_multiset (xs : list A) (m : multiset A) :
  size0 (fold_left insert xs m) = size0 m + Z.of_nat (length xs).
Proof.
  revert m. induction xs as [|h t IH]; intros m; simpl fold_left;
    [simpl; lia|].
  rewrite IH, size0_insert. simpl length. lia.
Qed.

(** X9: [build_multiset] returns a tree with the invariants in their
    strict form, every pivot with at least one copy, and with the
    length of the sequence as its size. *)
Theorem build_multiset_valid (xs : list A) :
  valid (build_multiset xs) /\
  size0 (build_multiset xs) = Z.of_nat (length xs).
Proof.
  split; [apply valid_build_multiset|].
  unfold build_multiset. now rewrite size0_build_multiset.
Qed.

Lemma to_sequence_build_perm (xs : list A) :
  Permutation (to_sequence (build_multiset xs)) xs.
Proof.
  unfold build_multiset.
  rewrite to_sequence_fold_insert by apply well_formed_empty.
  apply sorted_perm.
Qed.

(** X10: a lookup in the tree built from a sequence counts in the
    sequence: for a symbol of the sequence, [start] is the number of
    entries below it and [freq] the number of its occurrences; for any
    other symbol the lookup raises [ValueError]. *)
Theorem forward_lookup_build_multiset (xs : list A) (x : A) :
  (In x xs -> forward_lookup (build_multiset xs) x = Ok (slice_of xs x)) /\
  (~ In x xs -> forward_lookup (build_multiset xs) x = Raise ValueError).
Proof.
  pose proof (valid_build_multiset xs) as Hv.
  pose proof (to_sequence_build_perm xs) as Hperm.
  split.
  - intros Hin.
    rewrite (forward_lookup_slice x (valid_well_formed Hv)).
    + unfold slice_of. now rewrite !(count_perm _ Hperm).
    + apply to_sequence_stored.
      exact (Permutation_in _ (Permutation_sym Hperm) Hin).
  - intros Hout. apply forward_lookup_raises.
    apply search_reaches_empty_not_stored; [exact (proj1 Hv)|].
    intros Hst. apply Hout.
    exact (Permutation_in _ Hperm (stored_present _ _ (proj2 Hv) Hst)).
Qed.

Lemma count_disjoint (f g h : A -> bool) (xs : list A) :
  (forall z, f z = true -> g z = false) ->
  (forall z, f z = true -> h z = true) ->
  (forall z, g z = true -> h z = true) ->
  count f xs + count g xs <= count h xs.
Proof.
  intros Hfg Hfh Hgh. induction xs as [|z xs IH].
  - unfold count. simpl. lia.
  - rewrite !count_cons.
    destruct (f z) eqn:Hf, (g z) eqn:Hg, (h z) eqn:Hh; try lia.
    + rewrite (Hfg z Hf) in Hg. discriminate.
    + rewrite (Hfg z Hf) in Hg. discriminate.
    + rewrite (Hfh z Hf) in Hh. discriminate.
    + rewrite (Hgh z Hg) in Hh. discriminate.
Qed.

(** X11: the slices of a well-formed tree are laid out in the order of
    the symbols without overlap: the slice of a stored [x] ends at or
    before the start of the slice of any stored [y > x]. *)
Theorem slices_in_order (m : multiset A) (x y : A) :
  well_formed m -> stored x m -> stored y m -> lt x y = true ->
  exists sx fx sy fy,
    forward_lookup m x = Ok (sx, fx) /\
    forward_lookup m y = Ok (sy, fy) /\
    0 <= sx /\ 0 <= fx /\ sx + fx <= sy /\ sy + fy <= size0 m.
Proof.
  intros Hwf Hx Hy Hxy. pose proof Hwf as (_ & Hc & Hp).
  pose proof (forward_lookup_slice x Hwf Hx) as Ex.
  pose proof (forward_lookup_slice y Hwf Hy) as Ey.
  destruct (slice_of (to_sequence m) x) as [sx fx] eqn:Sx.
  destruct (slice_of (to_sequence m) y) as [sy fy] eqn:Sy.
  exists sx, fx, sy, fy. split; [assumption|]. split; [assumption|].
  destruct (forward_lookup_bounds _ _ Hc Hp Ex) as (? & ? & _).
  destruct (forward_lookup_bounds _ _ Hc Hp Ey) as (_ & _ & ?).
  repeat split; try assumption.
  unfold slice_of in Sx, Sy. inversion Sx; inversion Sy; subst.
  apply count_disjoint.
  - intros z Hz. rewrite Hz. reflexivity.
  - intros z Hz. exact (lt_trans _ _ _ Hz Hxy).
  - intros z Hz. apply (proj1 (symbol_eq_eq z x)) in Hz. now subst z.
Qed.

(** X12: an insertion moves the slices as a sorted insertion does: the
    slice of a symbol [y] of the tree starts one later if the new
    symbol is below [y], and is one longer if the new symbol is [y]. *)
Theorem insert_moves_slices (m : multiset A) (x y : A)
    (start freq : Z) :
  well_formed m -> stored y m -> forward_lookup m y = Ok (start, freq) ->
  forward_lookup (insert m x) y
  = Ok (start + (if lt x y then 1 else 0),
        freq + (if symbol_eq x y then 1 else 0)).
Proof.
  intros Hwf Hy Hfwd. pose proof Hwf as (Hb & Hc & _).
  rewrite (forward_lookup_slice y Hwf Hy) in Hfwd.
  inversion Hfwd as [[Hs Hf]].
  assert (stored y (insert m x)) as Hy'.
  { clear -Hy. induction m as [|size z l IHl r IHr]; simpl in *; [tauto|].
    destruct (lt x z); [|destruct (gt x z)]; simpl; tauto. }
  rewrite (forward_lookup_slice y (well_formed_insert x Hwf) Hy').
  rewrite (to_sequence_insert _ x Hb Hc). unfold slice_of.
  rewrite !(count_perm _ (insort_perm x (to_sequence m))), !count_cons.
  unfold symbol_eq. do 2 f_equal; lia.
Qed.

Lemma list_eq_eq (xs ys : list A) : list_eq xs ys = true <-> xs = ys.
Proof.
  revert ys. induction xs as [|x xs IH]; intros [|y ys]; simpl;
    try (split; (discriminate || reflexivity)).
  rewrite andb_true_iff, symbol_eq_eq, IH. split.
  - intros (-> & ->). reflexivity.
  - intros E. inversion E. auto.
Qed.

Lemma ascending_unique (xs ys : list A) :
  StronglySorted le xs -> StronglySorted le ys -> Permutation xs ys ->
  xs = ys.
Proof.
  intros Hxs. revert ys.
  induction Hxs as [|a xs Hxs IH Ha]; intros ys Hys Hperm.
  - now rewrite (Permutation_nil Hperm).
  - destruct Hys as [|b ys Hys Hb].
    + apply Permutation_sym, Permutation_nil in Hperm. discriminate.
    + assert (a = b) as ->.
      { rewrite Forall_forall in Ha, Hb.
        assert (In b (a :: xs)) as Hbin
          by (apply (Permutation_in _ (Permutation_sym Hperm)); left;
              reflexivity).
        assert (In a (b :: ys)) as Hain
          by (apply (Permutation_in _ Hperm); left; reflexivity).
        destruct Hbin as [E | Hbin]; [auto|].
        destruct Hain as [E | Hain]; [auto|].
        apply lt_total; [exact (Hb _ Hain)|exact (Ha _ Hbin)]. }
      f_equal. apply IH; [assumption|].
      exact (Permutation_cons_inv Hperm).
Qed.

Lemma sorted_permutation (xs ys : list A) :
  sorted xs = sorted ys <-> Permutation xs ys.
Proof.
  split.
  - intros E. rewrite <- (sorted_perm xs), E. apply sorted_perm.
  - intros Hperm. apply ascending_unique; try apply sorted_ascending.
    rewrite (sorted_perm xs), Hperm. symmetry. apply sorted_perm.
Qed.

(** X13: [check_multiset_equality] holds exactly when the two trees
    list the same symbols equally often, whatever their shapes. *)
Theorem check_multiset_equality_spec (m other_multiset : multiset A) :
  check_multiset_equality m other_multiset = true <->
  Permutation (to_sequence m) (to_sequence other_multiset).
Proof.
  unfold check_multiset_equality.
  rewrite list_eq_eq. apply sorted_permutation.
Qed.

(** X14: the order in which a sequence is inserted does not show in
    the contents: two sequences build trees that
    [check_multiset_equality] accepts exactly when one is a
    rearrangement of the other. *)
Theorem check_multiset_equality_build (xs ys : list A) :
  check_multiset_equality (build_multiset xs) (build_multiset ys) = true
  <-> Permutation xs ys.
Proof.
  unfold check_multiset_equality. rewrite list_eq_eq, sorted_permutation.
  split; intros Hperm.
  - rewrite <- (to_sequence_build_perm xs), Hperm.
    apply to_sequence_build_perm.
  - rewrite (to_sequence_build_perm xs), Hperm. symmetry.
    apply to_sequence_build_perm.
Qed.

End MsbstExtraCounts.

Section MsbstExtraShape.
Context {A : Type} `{Symbol A}.

Lemma remove_raise_kind (m : multiset A) (x : A) (e : exn) :
  remove m x = Raise e -> e = ValueError.
Proof.
  induction m as [|size y l IHl r IHr]; simpl.
  - intros E; inversion E; reflexivity.
  - destruct (size =? 1); [discriminate|].
    destruct (lt x y).
    + destruct (remove l x); simpl; [discriminate|].
      intros E; inversion E; subst. auto.
    + destruct (gt x y); [|discriminate].
      destruct (remove r x); simpl; [discriminate|].
      intros E; inversion E; subst. auto.
Qed.

(** X22: [remove] does not look for the symbol before it starts to
    decrement: in a search tree it raises only [ValueError], from the
    unpacking of [()], and only for a symbol that has no copy. *)
Theorem remove_raises_for_absent (m : multiset A) (x : A) (e : exn) :
  bst m -> remove m x = Raise e ->
  e = ValueError /\ ~ In x (to_sequence m).
Proof.
  intros Hb He. split; [exact (remove_raise_kind _ _ He)|].
  intros Hin. destruct (remove_present_succeeds _ _ Hb Hin) as (m' & Hok).
  congruence.
Qed.

Lemma forward_lookup_ok_stored (m : multiset A) (x : A) (sl : Z * Z) :
  forward_lookup m x = Ok sl -> stored x m.
Proof.
  revert sl.
  induction m as [|size y l IHl r IHr]; intros sl; simpl; [discriminate|].
  destruct (compare_cases x y)
    as [(Hlt & Hgt) | [(Hlt & Hgt) | (Hlt & Hgt & Heq)]];
    rewrite ?Hgt, ?Hlt; intros Hfwd.
  - right; left. exact (IHl _ Hfwd).
  - destruct (forward_lookup r x) as [[sr fr]|]; simpl in Hfwd;
      [|discriminate].
    right; right. exact (IHr _ eq_refl).
  - left. exact Heq.
Qed.

(** X23: a lookup depends on the contents of a valid tree and not on
    its shape: two valid trees that list the same symbols equally
    often answer every [forward_lookup] alike, slice for slice and
    error for error. *)
Theorem forward_lookup_shape_independent (m m' : multiset A) (x : A) :
  valid m -> valid m' ->
  Permutation (to_sequence m) (to_sequence m') ->
  forward_lookup m x = forward_lookup m' x.
Proof.
  assert (forall m1 m2 sl, valid m1 -> valid m2 ->
            Permutation (to_sequence m1) (to_sequence m2) ->
            forward_lookup m1 x = Ok sl -> forward_lookup m2 x = Ok sl)
    as Hok.
  { intros m1 m2 sl Hv1 Hv2 Hperm Hfwd.
    pose proof (forward_lookup_ok_stored _ _ Hfwd) as Hst1.
    pose proof (stored_present _ _ (proj2 Hv1) Hst1) as Hin1.
    pose proof (to_sequence_stored _ _ (Permutation_in _ Hperm Hin1)) as Hst2.
    rewrite (forward_lookup_slice x (valid_well_formed Hv1) Hst1) in Hfwd.
    rewrite (forward_lookup_slice x (valid_well_formed Hv2) Hst2).
    rewrite <- Hfwd. unfold slice_of.
    now rewrite !(count_perm _ Hperm). }
  intros Hv Hv' Hperm.
  destruct (forward_lookup m x) as [sl|e] eqn:Hfwd.
  - symmetry. exact (Hok m m' sl Hv Hv' Hperm Hfwd).
  - destruct (forward_lookup m' x) as [sl'|e'] eqn:Hfwd'.
    + rewrite (Hok m' m sl' Hv' Hv (Permutation_sym Hperm) Hfwd') in Hfwd.
      discriminate.
    + rewrite (forward_lookup_raise_kind _ _ Hfwd).
      now rewrite (forward_lookup_raise_kind _ _ Hfwd').
Qed.

End MsbstExtraShape.

Section MsbstExtraSampling.
Context {A : Type} `{Symbol A}.

(** X16: the tree step of [SamplingWithoutReplacement.encode] is undone
    by the tree step of its [decode].  On a well-formed tree
    [insert_then_forward_lookup] returns a slice of at least one index
    inside [0, size) of the new tree, and at every index of that slice
    [reverse_lookup_then_remove] returns the tree as it was before the
    insertion, the same slice and the symbol. *)
Theorem insert_then_forward_lookup_undone (m : multiset A) (x : A) :
  well_formed m ->
  exists start freq,
    insert_then_forward_lookup m x = (insert m x, (start, freq)) /\
    0 <= start /\ 1 <= freq /\ start + freq <= size0 (insert m x) /\
    forall idx, start <= idx < start + freq ->
      reverse_lookup_then_remove (insert m x) idx
      = Ok (m, (start, freq), x).
Proof.
  intros Hwf.
  pose proof (well_formed_insert x Hwf) as (Hb' & Hc' & Hp').
  pose proof (insert_then_forward_lookup_fst m x) as Hfst.
  pose proof (forward_lookup_insert m x) as Hfwd.
  destruct (insert_then_forward_lookup m x) as [m' [start freq]].
  simpl in Hfst, Hfwd. subst m'.
  destruct (forward_lookup_bounds _ _ Hc' Hp' Hfwd) as (Hs & _ & Hend).
  destruct (forward_lookup_insert_freq m x (proj1 (proj2 Hwf)))
    as (start' & freq' & Hfwd' & Hfreq).
  rewrite Hfwd in Hfwd'. inversion Hfwd'; subst start' freq'.
  exists start, freq. repeat split; try assumption.
  intros idx Hidx.
  pose proof (reverse_lookup_forward _ _ Hc' Hp' Hfwd Hidx) as Hrev.
  destruct (reverse_lookup_then_remove_fused _ _ Hb' Hrev)
    as (m' & Hrem & Hfused).
  rewrite (remove_insert_positive m x (proj2 (proj2 Hwf))) in Hrem.
  inversion Hrem; subst m'. exact Hfused.
Qed.

(** X17: the slice that [reverse_lookup_then_remove] returns does not
    depend on the shape of the tree it is computed in.  At an index in
    [0, size) of a well-formed tree it removes a symbol with a slice
    that holds the index, and [insert_then_forward_lookup] of that
    symbol into any well-formed tree with the contents that are left
    returns the same slice, in a tree of the size before the
    removal. *)
Theorem reverse_lookup_then_remove_redone (M : multiset A) (idx : Z) :
  well_formed M -> 0 <= idx < size0 M ->
  exists M1 start freq x,
    reverse_lookup_then_remove M idx = Ok (M1, (start, freq), x) /\
    start <= idx < start + freq /\
    forall N, well_formed N -> to_sequence N = to_sequence M1 ->
      insert_then_forward_lookup N x = (insert N x, (start, freq)) /\
      size0 (insert N x) = size0 M.
Proof.
  intros Hwf Hidx. pose proof Hwf as (Hb & Hc & Hp).
  destruct (reverse_lookup_total _ Hc Hp Hidx)
    as (start & freq & x & Hrev & Hin & Hstart & Hend).
  destruct (reverse_lookup_then_remove_fused _ _ Hb Hrev)
    as (M1 & Hrem & Hfused).
  exists M1, start, freq, x.
  split; [assumption|]. split; [assumption|].
  intros N HN Hcontents.
  exact (slice_recomputed Hwf Hidx Hrev Hrem HN Hcontents).
Qed.

End MsbstExtraSampling.

(** * Further properties of the codecs *)

Section SequenceExtra.
Context `{R : Rans}.





End SequenceExtra.

Section SamplingExtra.
Context `{R : Rans} {A : Type} `{Symbol A}.

Lemma SamplingWithoutReplacement_encode_inserts (st st' : ans_state)
    (x : A) (N N' : multiset A) :
  encode SamplingWithoutReplacement st x N = Ok (st', N') ->
  N' = insert N x.
Proof.
  destruct st as [h t]. unfold SamplingWithoutReplacement.
  rewrite substack_encode_eq. cbn [encode].
  unfold SamplingWithoutReplacement_encode.
  pose proof (insert_then_forward_lookup_fst N x) as Hfst.
  destruct (insert_then_forward_lookup N x) as [N1 [start freq]].
  simpl in Hfst. subst N1.
  rewrite (item0_positive (insert_not_empty N x)). cbn [bind].
  destruct (rans_encode _ _ _ _) as [[sh' t']|e]; cbn [bind];
    [|discriminate].
  intros E. inversion E. reflexivity.
Qed.

Lemma Multiset_decode_loop_valid (symbol_codec : Codec A unit)
    (rounds : nat) :
  forall (st st' : ans_state) (N N' : multiset A),
    Multiset_decode_loop symbol_codec rounds st N = Ok (st', N') ->
    valid N -> valid N' /\ size0 N' = size0 N + Z.of_nat rounds.
Proof.
  induction rounds as [|rounds IH]; intros st st' N N' Hloop Hv.
  - simpl in Hloop. inversion Hloop; subst. split; [assumption|lia].
  - cbn [Multiset_decode_loop] in Hloop.
    destruct (decode symbol_codec st tt) as [[[st1 x] []]|];
      cbn [bind] in Hloop; [|discriminate].
    destruct (encode SamplingWithoutReplacement st1 x N)
      as [[st2 N2]|] eqn:Henc; cbn [bind] in Hloop; [|discriminate].
    apply SamplingWithoutReplacement_encode_inserts in Henc. subst N2.
    destruct (IH _ _ _ _ Hloop (valid_insert x Hv)) as (Hv' & Hsize).
    split; [assumption|]. rewrite Hsize, size0_insert. lia.
Qed.

(** X18: whatever the state holds, a multiset that
    [Multiset(C).decode] returns is a valid tree, every pivot with at
    least one copy, of the size that was asked for (0 for a size that
    is not positive). *)
Theorem Multiset_decode_valid (symbol_codec : Codec A unit)
    (st st' : ans_state) (multiset_size : Z) (M : multiset A) :
  Multiset_decode symbol_codec st multiset_size = Ok (st', M) ->
  valid M /\ size0 M = Z.max 0 multiset_size.
Proof.
  unfold Multiset_decode. intros Hloop.
  destruct (@Multiset_decode_loop_valid symbol_codec _ _ _ _ _ Hloop
              valid_empty)
    as (Hv & Hsize).
  split; [assumption|]. rewrite Hsize. simpl. lia.
Qed.

(** X19: [Multiset(C).encode] needs a lane: on a state without lanes
    and a multiset that is not empty the first round ends in
    [cdf_value[0]] on an empty array. *)
Theorem Multiset_encode_no_lane (symbol_codec : Codec A unit) (fuel : nat)
    (t : tail) (M : multiset A) :
  M <> Empty ->
  Multiset_encode symbol_codec (S fuel) ([], t) M = Some (Raise IndexError).
Proof.
  intros Hne. destruct M as [|size y l r]; [congruence|].
  cbn [Multiset_encode]. unfold SamplingWithoutReplacement.
  rewrite substack_decode_eq. cbn [decode firstn].
  unfold SamplingWithoutReplacement_decode. cbn [item0 bind].
  pose proof (decode_shape ([], t) size) as Hshape.
  destruct (rans_decode ([], t) size) as [cdf_value decode_].
  simpl in Hshape. destruct cdf_value; [reflexivity|discriminate].
Qed.

(** X24: the walk back of the bits-back loop.  Suppose that, on one
    lane, the engine's [encode] undoes its [pop] wherever that returns,
    and that the symbol codec's [decode] undoes its [encode] of the
    symbols of a well-formed multiset wherever that returns.  Then from
    every state that [Multiset(C).encode] returns, [Multiset(C).decode],
    told the size, returns the state the encoder started from and a
    tree with the same symbols as often, whatever its shape. *)
Theorem Multiset_decode_undoes_encode (symbol_codec : Codec A unit)
    (n fuel : nat) (st st' : ans_state) (M : multiset A) :
  encode_undoes_pop ->
  well_formed M ->
  (forall x, In x (to_sequence M) -> undoes n symbol_codec x) ->
  lanes st = n ->
  Multiset_encode symbol_codec fuel st M = Some (Ok st') ->
  exists M',
    Multiset_decode symbol_codec st' (size0 M) = Ok (st, M') /\
    to_sequence M' = to_sequence M.
Proof.
  intros Hengine Hwf Hsym Hlane Hrun.
  destruct (@Multiset_undone _ _ _ symbol_codec n fuel Hengine M st st'
              Hwf Hsym Hlane Hrun) as (N & Hloop & _ & Hseq).
  exists N. split; [exact Hloop|exact Hseq].
Qed.

End SamplingExtra.

Section SubstackExtra.
Context `{R : Rans}.

(** X20: [substack] leaves the lanes outside the view alone: when the
    inner codec returns as many lanes as it was given, the lanes from
    the [n]-th on are the same after [encode] as before, and so is the
    number of lanes. *)
Theorem substack_outside_view {S Ctx : Type} (codec : Codec S Ctx)
    (n : nat) (h h' : list Z) (t t' : tail) (x : S) (c c' : Ctx) :
  (forall sub' c1, encode codec (firstn n h, t) x c = Ok (sub', c1) ->
                   lanes sub' = length (firstn n h)) ->
  encode (substack codec n) (h, t) x c = Ok ((h', t'), c') ->
  skipn n h' = skipn n h /\ length h' = length h.
Proof.
  intros Hshape. rewrite substack_encode_eq.
  destruct (encode codec (firstn n h, t) x c) as [[[sh1 t1] c1]|] eqn:Henc;
    cbn [bind]; [|discriminate].
  specialize (Hshape _ _ eq_refl). unfold lanes in Hshape. cbn [fst] in Hshape.
  intros E. inversion E; subst. split.
  - exact (skipn_update n h sh1 Hshape).
  - rewrite length_app, Hshape, <- length_app. now rewrite firstn_skipn.
Qed.

(** X21: whatever the engine does and whatever the state holds, a
    [ByteArray(max_size).decode] that returns has found a lane to read
    the length from, returns no more bytes than the head has lanes,
    and leaves a head of as many lanes. *)
Theorem ByteArray_decode_lanes (max_array_size : Z) (st st' : ans_state)
    (b : list Byte.byte) :
  decode (ByteArray max_array_size) st tt = Ok (st', b, tt) ->
  (1 <= lanes st)%nat /\ (length b <= lanes st)%nat /\
  lanes st' = lanes st.
Proof.
  exact (@ByteArray_decode_shape _ max_array_size st st' b).
Qed.

End SubstackExtra.

(** ** The further properties at the trees of the test suite *)

Lemma tree8_well_formed : well_formed Tests.tree8.
Proof. exact (valid_well_formed tree8_valid). Qed.

Lemma tree4_well_formed : well_formed Tests.tree4.
Proof. exact (valid_well_formed tree4_valid). Qed.

Lemma ghost_tree_well_formed : well_formed Tests.ghost_tree.
Proof. solve_invariant. Qed.

Lemma to_sequence_ascending_witness :
  bst Tests.ghost_tree /\ StronglySorted le (to_sequence Tests.ghost_tree).
Proof.
  split; [exact (proj1 ghost_tree_well_formed)|].
  apply to_sequence_ascending. exact (proj1 ghost_tree_well_formed).
Defined.

Lemma size_counts_elements_witness :
  well_formed Tests.ghost_tree /\
  size0 Tests.ghost_tree = Z.of_nat (length (to_sequence Tests.ghost_tree)).
Proof.
  split; [exact ghost_tree_well_formed|].
  apply size_counts_elements. exact ghost_tree_well_formed.
Defined.

Lemma reverse_lookup_nth_witness :
  well_formed Tests.tree8 /\
  exists start freq,
    reverse_lookup Tests.tree8 3
    = Ok ((start, freq),
          nth (Z.to_nat 3) (to_sequence Tests.tree8) "z"%char) /\
    start <= 3 < start + freq.
Proof.
  split; [exact tree8_well_formed|].
  apply (@reverse_lookup_nth _ _ Tests.tree8 3 "z"%char tree8_well_formed).
  simpl. lia.
Defined.

Lemma reverse_lookup_assertion_witness :
  well_formed Tests.tree8 /\
  (reverse_lookup Tests.tree8 8 = Raise AssertionError <->
   ~ 0 <= 8 < size0 Tests.tree8) /\
  (forall e, reverse_lookup Tests.tree8 8 = Raise e -> e = AssertionError).
Proof.
  split; [exact tree8_well_formed|].
  apply (@reverse_lookup_assertion _ _ Tests.tree8 8 tree8_well_formed).
Defined.

Lemma reverse_lookup_then_remove_out_of_range_witness :
  well_formed Tests.tree8 /\
  reverse_lookup_then_remove Tests.tree8 (-1) = Raise ValueError /\
  reverse_lookup_then_remove Tests.tree8 8 = Raise IndexError.
Proof.
  split; [exact tree8_well_formed|]. split.
  - apply (@reverse_lookup_then_remove_out_of_range _ _ Tests.tree8 (-1)
             tree8_well_formed). lia.
  - apply (@reverse_lookup_then_remove_out_of_range _ _ Tests.tree8 8
             tree8_well_formed); [simpl; lia|discriminate].
Defined.

Lemma remove_present_witness :
  well_formed Tests.ghost_tree /\
  exists m',
    remove Tests.ghost_tree "a"%char = Ok m' /\
    well_formed m' /\
    size0 m' = size0 Tests.ghost_tree - 1 /\
    to_sequence Tests.ghost_tree = insort "a"%char (to_sequence m').
Proof.
  split; [exact ghost_tree_well_formed|].
  apply (@remove_present _ _ Tests.ghost_tree "a"%char
           ghost_tree_well_formed).
  simpl. left. reflexivity.
Defined.

Lemma reverse_lookup_then_remove_nth_witness :
  well_formed Tests.tree8 /\
  exists m' sl,
    let x := nth (Z.to_nat 3) (to_sequence Tests.tree8) "z"%char in
    reverse_lookup_then_remove Tests.tree8 3 = Ok (m', sl, x) /\
    well_formed m' /\
    size0 m' = size0 Tests.tree8 - 1 /\
    to_sequence Tests.tree8 = insort x (to_sequence m').
Proof.
  split; [exact tree8_well_formed|].
  apply (@reverse_lookup_then_remove_nth _ _ Tests.tree8 3 "z"%char
           tree8_well_formed).
  simpl. lia.
Defined.

Lemma insert_remove_witness :
  valid Tests.tree8 /\
  exists m',
    remove Tests.tree8 "d"%char = Ok m' /\ insert m' "d"%char = Tests.tree8.
Proof.
  split; [exact tree8_valid|].
  apply (@insert_remove _ _ Tests.tree8 "d"%char tree8_valid).
  simpl. auto 10.
Defined.

Lemma forward_lookup_build_multiset_witness :
  forward_lookup (build_multiset Tests.xs) "b"%char
  = Ok (slice_of Tests.xs "b"%char) /\
  forward_lookup (build_multiset Tests.xs) "c"%char = Raise ValueError.
Proof.
  split.
  - apply (proj1 (forward_lookup_build_multiset Tests.xs "b"%char)).
    simpl. tauto.
  - apply (proj2 (forward_lookup_build_multiset Tests.xs "c"%char)).
    simpl. intuition discriminate.
Defined.

Lemma slices_in_order_witness :
  well_formed Tests.tree8 /\
  exists sx fx sy fy,
    forward_lookup Tests.tree8 "a"%char = Ok (sx, fx) /\
    forward_lookup Tests.tree8 "d"%char = Ok (sy, fy) /\
    0 <= sx /\ 0 <= fx /\ sx + fx <= sy /\ sy + fy <= size0 Tests.tree8.
Proof.
  split; [exact tree8_well_formed|].
  apply (@slices_in_order _ _ Tests.tree8 "a"%char "d"%char
           tree8_well_formed).
  - simpl. auto 10.
  - simpl. auto 10.
  - reflexivity.
Defined.

Lemma insert_moves_slices_witness :
  well_formed Tests.tree4 /\
  forward_lookup Tests.tree4 "c"%char = Ok (3, 1) /\
  forward_lookup (insert Tests.tree4 "a"%char) "c"%char = Ok (3 + 1, 1 + 0).
Proof.
  split; [exact tree4_well_formed|]. split; [reflexivity|].
  apply (@insert_moves_slices _ _ Tests.tree4 "a"%char "c"%char 3 1
           tree4_well_formed).
  - simpl. left. reflexivity.
  - reflexivity.
Defined.

Lemma remove_raises_for_absent_witness :
  bst Tests.tree8 /\
  remove Tests.tree8 "0"%char = Raise ValueError /\
  ~ In "0"%char (to_sequence Tests.tree8).
Proof.
  split; [exact (proj1 tree8_valid)|]. split; [reflexivity|].
  apply (@remove_raises_for_absent _ _ Tests.tree8 "0"%char ValueError
           (proj1 tree8_valid)).
  reflexivity.
Defined.

Lemma forward_lookup_shape_independent_witness :
  valid Tests.tree4 /\
  forward_lookup Tests.tree4 "b"%char
  = forward_lookup (build_multiset ["c"; "b"; "a"; "a"]%char) "b"%char.
Proof.
  split; [exact tree4_valid|].
  apply (@forward_lookup_shape_independent _ _ Tests.tree4
           (build_multiset ["c"; "b"; "a"; "a"]%char) "b"%char tree4_valid
           (valid_build_multiset _)).
  vm_compute. apply Permutation_refl.
Defined.

Lemma insert_then_forward_lookup_undone_witness :
  well_formed Tests.ghost_tree /\
  exists start freq,
    insert_then_forward_lookup Tests.ghost_tree "b"%char
    = (insert Tests.ghost_tree "b"%char, (start, freq)) /\
    0 <= start /\ 1 <= freq /\
    start + freq <= size0 (insert Tests.ghost_tree "b"%char) /\
    forall idx, start <= idx < start + freq ->
      reverse_lookup_then_remove (insert Tests.ghost_tree "b"%char) idx
      = Ok (Tests.ghost_tree, (start, freq), "b"%char).
Proof.
  split; [exact ghost_tree_well_formed|].
  apply (@insert_then_forward_lookup_undone _ _ Tests.ghost_tree "b"%char
           ghost_tree_well_formed).
Defined.

Lemma reverse_lookup_then_remove_redone_witness :
  well_formed Tests.tree8 /\
  exists M1 start freq x,
    reverse_lookup_then_remove Tests.tree8 3 = Ok (M1, (start, freq), x) /\
    start <= 3 < start + freq /\
    forall N, well_formed N -> to_sequence N = to_sequence M1 ->
      insert_then_forward_lookup N x = (insert N x, (start, freq)) /\
      size0 (insert N x) = size0 Tests.tree8.
Proof.
  split; [exact tree8_well_formed|].
  apply (@reverse_lookup_then_remove_redone _ _ Tests.tree8 3
           tree8_well_formed).
  simpl. lia.
Defined.

(** ** The further codec properties on the engine of the examples *)



Lemma Multiset_decode_valid_witness :
  Multiset_decode (@ByteArray Ideal 4)
    ([1537228672624518474; 281474976729417; 4294967296], []) 4
  = Ok (base_message 3, build_multiset Tests.images) /\
  valid (build_multiset Tests.images) /\
  size0 (build_multiset Tests.images) = Z.max 0 4.
Proof.
  split; [reflexivity|].
  apply (@Multiset_decode_valid Ideal _ _ (@ByteArray Ideal 4)
           ([1537228672624518474; 281474976729417; 4294967296], [])
           (base_message 3) 4 (build_multiset Tests.images)).
  reflexivity.
Defined.

Lemma Multiset_encode_no_lane_witness :
  Multiset_encode (@ByteArray Ideal 4) 1 ([], [])
                  (build_multiset Tests.images)
  = Some (Raise IndexError).
Proof.
  apply (@Multiset_encode_no_lane Ideal _ _ (@ByteArray Ideal 4) 0 []
           (build_multiset Tests.images)).
  simpl. discriminate.
Defined.

Lemma substack_outside_view_witness :
  encode (substack (@Uniform Ideal 256) 1) (base_message 3) (Num 7) tt
  = Ok (([1099511627783; 4294967296; 4294967296], []), tt) /\
  skipn 1 [1099511627783; 4294967296; 4294967296]
  = skipn 1 (fst (base_message 3)) /\
  length [1099511627783; 4294967296; 4294967296]
  = length (fst (base_message 3)).
Proof.
  split; [reflexivity|].
  apply (@substack_outside_view Ideal _ _ (@Uniform Ideal 256) 1
           (fst (base_message 3)) [1099511627783; 4294967296; 4294967296]
           [] [] (Num 7) tt tt).
  - intros sub' c1 Henc. vm_compute in Henc.
    injection Henc as <- _. reflexivity.
  - reflexivity.
Defined.

Lemma ByteArray_decode_lanes_witness :
  decode (@ByteArray Ideal 4)
         ([4398046511434; 1099511627849; 4294967296], []) tt
  = Ok (base_message 3, [Byte.x52; Byte.x49], tt) /\
  (1 <= 3)%nat /\ (length [Byte.x52; Byte.x49] <= 3)%nat /\
  lanes (base_message 3) = 3%nat.
Proof.
  split; [reflexivity|].
  apply (@ByteArray_decode_lanes Ideal 4
           ([4398046511434; 1099511627849; 4294967296], [])
           (base_message 3) [Byte.x52; Byte.x49]).
  reflexivity.
Defined.

Lemma Ideal_encode_undoes_pop : @encode_undoes_pop Ideal.
Proof.
  intros [h t] st1 p start freq Hlane Hok Hin Hpop.
  unfold lanes in Hlane. cbn [fst] in Hlane.
  destruct h as [|x [|? ?]]; try discriminate.
  simpl in Hpop, Hin. inversion Hpop; subst st1.
  inversion Hin as [|? ? ? ? Hcf _]; subst. simpl in Hcf.
  simpl. unfold ideal_encode. simpl.
  now rewrite (encode_lane_pop x Hok Hcf).
Qed.

Lemma inverts_undoes {R : Rans} {S : Type} (n : nat) (codec : Codec S unit)
    (x : S) :
  inverts n codec x -> undoes n codec x.
Proof.
  intros Hinv st st' Hlane Henc.
  destruct (Hinv st Hlane) as (st'' & Henc' & Hdec & Hlane').
  rewrite Henc in Henc'. inversion Henc'; subst st''. auto.
Qed.

Lemma Multiset_decode_undoes_encode_witness :
  exists M',
    Multiset_decode (@ByteArray Ideal 4)
      ([1537228672624518474; 281474976729417; 4294967296], [])
      (size0 (build_multiset Tests.images))
    = Ok (base_message 3, M') /\
    to_sequence M' = to_sequence (build_multiset Tests.images).
Proof.
  apply (@Multiset_decode_undoes_encode Ideal _ _ (@ByteArray Ideal 4) 3 4
           (base_message 3)
           ([1537228672624518474; 281474976729417; 4294967296], [])
           (build_multiset Tests.images) Ideal_encode_undoes_pop
           (valid_well_formed (valid_build_multiset Tests.images))).
  - intros x Hx. apply inverts_undoes. exact (images_inverted Hx).
  - reflexivity.
  - reflexivity.
Defined.

